(** * C++ feature demonstrations: a shallow embedding and its properties

    The repository is a collection of independent C++ snippets.  Each
    program is embedded below the way it is written: templates become
    polymorphic definitions over type classes, [int] is a bounded integer
    whose overflow is undefined, references are locations of a store,
    [std::cout] is a text that only grows, and the threads example is a
    pool of instruction sequences run under an arbitrary schedule. *)

From stdpp Require Import base option numbers list strings gmap pretty functions.
From Stdlib Require Import SpecFloat.

Local Open Scope string_scope.
Local Open Scope Z_scope.

(** ** The C++ type [int]

    A 32-bit two's complement integer.  Arithmetic whose mathematical
    result leaves the range is undefined behaviour; the operations return
    [None] there. *)
Module CppInt.

Definition int_min : Z := - 2 ^ 31.
Definition int_max : Z := 2 ^ 31 - 1.

Definition in_range (z : Z) : bool := (int_min <=? z) && (z <=? int_max).

Definition add (a b : Z) : option Z :=
  if in_range (a + b) then Some (a + b) else None.

End CppInt.

(** ** The process and what surrounds it *)

(** What a program could read or change outside itself, apart from its
    standard output. *)
Record Environment := {
  argv : list string;
  stdin : string;
  files : gmap string string;
  network : list string
}.

(** [cout] is the text written to the standard output so far.  [supply]
    answers, in order, the requests for memory or for an operating-system
    resource that the process will make: [true] means the request is
    refused.  When the list is exhausted every request is granted. *)
Record World := {
  env : Environment;
  cout : string;
  supply : list bool
}.

Inductive exception : Type :=
| bad_alloc
| system_error.

(** A run either returns, or ends with an exception that no handler took
    ([std::terminate] ends the process there), or reaches an operation
    whose behaviour the language leaves undefined. *)
Inductive Outcome (A : Type) : Type :=
| Returned (a : A) (w : World)
| Uncaught (e : exception) (w : World)
| Undefined (w : World).
Arguments Returned {A} a w.
Arguments Uncaught {A} e w.
Arguments Undefined {A} w.

Definition Process (A : Type) : Type := World -> Outcome A.

#[export] Instance Process_ret : MRet Process := fun A a w => Returned a w.

#[export] Instance Process_bind : MBind Process := fun A B k m w =>
  match m w with
  | Returned a w' => k a w'
  | Uncaught e w' => Uncaught e w'
  | Undefined w' => Undefined w'
  end.

Definition final_world {A} (o : Outcome A) : World :=
  match o with
  | Returned _ w => w
  | Uncaught _ w => w
  | Undefined w => w
  end.

(** [std::endl] inserts a newline (and flushes). *)
Definition endl : string := String (Ascii.ascii_of_nat 10) "".

(** [std::cout << s]: the text is appended to the standard output.  An
    insertion into [std::cout] requests no memory; a stream does not
    throw when an insertion fails, and no example reads the state of
    [std::cout]: these insertions are taken to succeed. *)
Definition cout_put (s : string) : Process unit := fun w =>
  Returned tt {| env := env w; cout := cout w +:+ s; supply := supply w |}.

(** The answer to the next request, and the answers that remain. *)
Definition request (supply : list bool) : bool * list bool :=
  match supply with
  | [] => (false, [])
  | refused :: rest => (refused, rest)
  end.

(** A request for memory or for a system resource; a refused request
    throws [e]. *)
Definition acquire (e : exception) : Process unit := fun w =>
  let (refused, rest) := request (supply w) in
  let w' := {| env := env w; cout := cout w; supply := rest |} in
  if refused then Uncaught e w' else Returned tt w'.

(** An operation that is only defined where [o] is a value. *)
Definition defined {A} (o : option A) : Process A := fun w =>
  match o with
  | Some a => Returned a w
  | None => Undefined w
  end.

(** A [std::string] keeps a short text inside the object itself and
    requests memory from the heap only for a longer one.
    [small_capacity] is the number of characters that fit inside: 15 in
    the GNU and in the Microsoft library (22 in the LLVM one).  Every
    literal of the examples has at most 11 or at least 31 characters. *)
Definition small_capacity : nat := 15.

(** [std::string] built from a literal, copied or assigned. *)
Definition std_string (s : string) : Process string :=
  if (String.length s <=? small_capacity)%nat then mret s
  else acquire bad_alloc ;; mret s.

(** *** The vocabulary of the properties of a process *)

(** The world after [text] has been written to the standard output. *)
Definition printed (w : World) (text : string) : World :=
  {| env := env w; cout := cout w +:+ text; supply := supply w |}.

(** Nothing written yet, nothing around, every request granted. *)
Definition empty_world : World :=
  {| env := {| argv := []; stdin := ""; files := ∅; network := [] |};
     cout := ""; supply := [] |}.

(** The same world in another environment. *)
Definition with_env (e : Environment) (w : World) : World :=
  {| env := e; cout := cout w; supply := supply w |}.

Definition outcome_with_env {A} (e : Environment) (o : Outcome A) : Outcome A :=
  match o with
  | Returned a w => Returned a (with_env e w)
  | Uncaught x w => Uncaught x (with_env e w)
  | Undefined w => Undefined (with_env e w)
  end.

(** From [w] to [w'] every request made was granted. *)
Definition granted (w w' : World) : Prop :=
  exists used, Forall (eq false) used /\ supply w = (used ++ supply w')%list.

(** From [w] to [w'] requests were granted until one was refused, and
    none was made after it. *)
Definition refused_last (w w' : World) : Prop :=
  exists used, Forall (eq false) used /\ supply w = (used ++ true :: supply w')%list.

(** No failure is survived: a run that returns had all its requests
    granted, a refused request ends the run uncaught at that point, and
    nothing is undefined. *)
Definition fails_fast {A} (m : Process A) : Prop :=
  forall w,
    match m w with
    | Returned _ w' => granted w w'
    | Uncaught _ w' => refused_last w w'
    | Undefined _ => False
    end.

(** The environment is neither changed nor read, and the standard output
    only grows. *)
Definition stdout_only {A} (m : Process A) : Prop :=
  (forall w, env (final_world (m w)) = env w /\
             exists text, cout (final_world (m w)) = cout w +:+ text) /\
  (forall w e, m (with_env e w) = outcome_with_env e (m w)).

Definition hermetic {A} (m : Process A) : Prop :=
  fails_fast m /\ stdout_only m.

(** From [w] to [w'] the environment is kept and the standard output only
    grows. *)
Definition quiet (w w' : World) : Prop :=
  env w' = env w /\ exists text, cout w' = cout w +:+ text.

(** Whatever [m] returns satisfies [Q]. *)
Definition returns {A} (Q : A -> Prop) (m : Process A) : Prop :=
  forall w a w', m w = Returned a w' -> Q a.

(** ** Function and variadic templates (the templates example) *)
Module Templates.

(** The types a template parameter pack can be instantiated with. *)
Inductive cpp_type : Type :=
| t_int | t_float | t_double | t_string.

(** [template <typename... T> struct arity]: [value] is [sizeof...(T)]
    converted to [int]. *)
Definition arity (T : list cpp_type) : Z := Z.of_nat (length T).

(** What [sum] needs of its argument type [First]: the value [First{0}]
    and [operator+]. *)
Class Summable (First : Type) := {
  zero_init : First;
  plus : First -> First -> option First
}.

#[export] Instance int_Summable : Summable Z := {
  zero_init := 0;
  plus := CppInt.add
}.

(** [std::accumulate(first, last, init)]: [init = init + *first] for each
    element from left to right. *)
Fixpoint accumulate `{Summable First} (values : list First) (init : First)
  : option First :=
  match values with
  | [] => Some init
  | v :: rest =>
      match plus init v with
      | Some init' => accumulate rest init'
      | None => None
      end
  end.

(** [sum(firstArgument, otherArguments...)]: the arguments are gathered in
    an initializer list, which is accumulated from [First{0}]. *)
Definition sum `{Summable First} (firstArgument : First)
    (otherArguments : list First) : option First :=
  let values := firstArgument :: otherArguments in
  accumulate values zero_init.

(** [operator>] and [operator==] of the type a template is instantiated
    with. *)
Class Comparable (T : Type) := {
  greater : T -> T -> bool;
  equal : T -> T -> bool
}.

(** The two operators agree: values that compare equal are not ordered. *)
Class Lawful (T : Type) `{Comparable T} :=
  equal_not_greater : forall a b : T, equal a b = true -> greater a b = false.

#[export] Instance int_Comparable : Comparable Z := {
  greater a b := b <? a;
  equal a b := a =? b
}.

(** [double] is an IEEE 754 binary64 number: a sign, a mantissa and an
    exponent, or a zero, an infinity or a NaN; the comparisons are those
    of the standard. *)
Abbreviation double := spec_float (only parsing).

#[export] Instance double_Comparable : Comparable double := {
  greater a b := SFltb b a;
  equal a b := SFeqb a b
}.

(** The literals 3.5 and 2.5: 7 * 2^50 * 2^-51 and 5 * 2^50 * 2^-51. *)
Definition double_3_5 : double := S754_finite false 7881299347898368 (-51).
Definition double_2_5 : double := S754_finite false 5629499534213120 (-51).

(** [std::string] compares lexicographically, character by character. *)
#[export] Instance string_Comparable : Comparable string := {
  greater a b := String.ltb b a;
  equal a b := String.eqb a b
}.

(** [T& getLarger(T& a, T& b)].  The parameters and the result are
    references: locations of the memory [mem] that holds the objects. *)
Definition getLarger {Loc T} `{Comparable T} (mem : Loc -> T) (a b : Loc) : Loc :=
  if greater (mem a) (mem b) then a else b.

Section Main.
(** [operator<<] for [double], from the standard library. *)
Variable show_double : double -> string.

Definition main : Process Z :=
  let ints : string -> Z := <["int2" := 10]> (<["int1" := 5]> (fun _ => 0)) in
  cout_put "Larger int: " ;;
  cout_put (pretty (ints (getLarger ints "int1" "int2"))) ;;
  cout_put endl ;;
  let doubles : string -> double :=
    <["double2" := double_2_5]> (<["double1" := double_3_5]> (fun _ => S754_zero false)) in
  cout_put "Larger double: " ;;
  cout_put (show_double (doubles (getLarger doubles "double1" "double2"))) ;;
  cout_put endl ;;
  string1 ← std_string "Hello";
  string2 ← std_string "World";
  let strings : string -> string :=
    <["string2" := string2]> (<["string1" := string1]> (fun _ => "")) in
  let largerString := getLarger strings "string1" "string2" in
  assigned ← std_string "Hello World";
  let strings := <[largerString := assigned]> strings in
  cout_put "string2: " ;; cout_put (strings "string2") ;; cout_put endl ;;
  cout_put "Arity of int: " ;;
  cout_put (pretty (arity [t_int; t_float])) ;;
  cout_put endl ;;
  cout_put "Sum: " ;;
  total ← defined (sum 1 [2; 3; 4; 5; 6; 7; 8; 9; 10]);
  cout_put (pretty total) ;; cout_put endl ;;
  mret 0.

End Main.

End Templates.

(** ** Static polymorphism with CRTP, and the virtual functions it replaces *)
Module CRTP.

(** [template <typename Derived> class Shape]: what the base class needs
    of [Derived] is its [drawImpl]. *)
Class Shape (Derived : Type) := drawImpl : Derived -> Process unit.

(** [Shape<Derived>::draw]: [static_cast<const Derived*>(this)->drawImpl()]. *)
Definition draw `{Shape Derived} (this : Derived) : Process unit :=
  drawImpl this.

Inductive Circle : Type := circle.
Inductive Square : Type := square.

#[export] Instance Circle_Shape : Shape Circle := fun _ =>
  cout_put ("Drawing Circle" +:+ endl).

#[export] Instance Square_Shape : Shape Square := fun _ =>
  cout_put ("Drawing Square" +:+ endl).

Definition render `{Shape ShapeType} (shape : ShapeType) : Process unit :=
  draw shape.

Definition main : Process Z :=
  let c := circle in
  let s := square in
  render c ;;
  render s ;;
  mret 0.

End CRTP.

Module VirtualShapes.

(** The abstract base class: an object is known by its dynamic type, and
    [draw] dispatches on it. *)
Inductive Shape : Type := Circle | Square.

Definition draw (this : Shape) : Process unit :=
  match this with
  | Circle => cout_put ("Drawing Circle" +:+ endl)
  | Square => cout_put ("Drawing Square" +:+ endl)
  end.

Definition render (shape : Shape) : Process unit := draw shape.

Definition main : Process Z :=
  let c := Circle in
  let s := Square in
  render c ;;
  render s ;;
  mret 0.

End VirtualShapes.

(** ** Vectors: [emplace_back] *)
Module Vectors.

Record MyClass := { m_x : Z; m_y : string }.

(** [MyClass(int x, std::string y) : m_x(x), m_y(y)]. *)
Definition MyClass_ctor (x : Z) (y : string) : Process MyClass :=
  m_y' ← std_string y;
  cout_put "Constructed MyClass(" ;; cout_put (pretty x) ;; cout_put ", " ;;
  cout_put m_y' ;; cout_put ")" ;; cout_put endl ;;
  mret {| m_x := x; m_y := m_y' |}.

(** [std::vector<MyClass>]: the elements, and the number of elements its
    storage has room for. *)
Record vector := { elements : list MyClass; capacity : nat }.

(** The storage requested when the vector is full: twice the size, and
    room for one element at least. *)
Definition grown (capacity : nat) : nat := Nat.max 1 (2 * capacity).

(** Room for one more element: storage is requested only when the vector
    is full.  The elements are moved to the new storage; moving a
    [MyClass] requests nothing and prints nothing. *)
Definition room_for_one (myVector : vector) : Process nat :=
  if (length (elements myVector) <? capacity myVector)%nat
  then mret (capacity myVector)
  else acquire bad_alloc ;; mret (grown (capacity myVector)).

(** [myVector.emplace_back(x, literal)]: the vector makes room, the
    literal becomes the [std::string] argument of the constructor, and the
    element is constructed in place at the end. *)
Definition emplace_back (myVector : vector) (x : Z) (literal : string)
  : Process vector :=
  capacity' ← room_for_one myVector;
  y ← std_string literal;
  element ← MyClass_ctor x y;
  mret {| elements := (elements myVector ++ [element])%list; capacity := capacity' |}.

Definition main : Process Z :=
  let myVector : vector := {| elements := []; capacity := 0 |} in
  myVector ← emplace_back myVector 1 "Apple";
  myVector ← emplace_back myVector 2 "Banana";
  myVector ← emplace_back myVector 3 "Cherry";
  mret 0.

End Vectors.

(** ** Smart pointers *)
Module SmartPointers.

Inductive Resource : Type := resource.

Definition Resource_ctor : Process Resource :=
  cout_put ("Resource acquired" +:+ endl) ;; mret resource.

Definition Resource_dtor (this : Resource) : Process unit :=
  cout_put ("Resource released" +:+ endl).

Record MyClass := { m_value : Z }.

Definition MyClass_ctor (value : Z) : Process MyClass :=
  mret {| m_value := value |}.

Definition display (this : MyClass) : Process unit :=
  cout_put "Value: " ;; cout_put (pretty (m_value this)) ;; cout_put endl.

(** The implicit destructor of [MyClass] does nothing. *)
Definition MyClass_dtor (this : MyClass) : Process unit := mret tt.

(** A new-expression: the memory is requested, then the constructor runs. *)
Definition new {T} (ctor : Process T) : Process T :=
  acquire bad_alloc ;; ctor.

(** [std::unique_ptr<T>]: the pointer owns the object it holds, if any. *)
Definition unique_ptr (T : Type) : Type := option T.

Definition make_unique {T} (ctor : Process T) : Process (unique_ptr T) :=
  object ← new ctor; mret (Some object).

(** [operator->]: undefined for a pointer that owns nothing. *)
Definition arrow {T} (this : unique_ptr T) : Process T := defined this.

(** [~unique_ptr]: the owned object is destroyed. *)
Definition unique_ptr_dtor {T} (dtor : T -> Process unit) (this : unique_ptr T)
  : Process unit :=
  match this with
  | Some object => dtor object
  | None => mret tt
  end.

(** [std::shared_ptr<T>]: the object and the number of owners recorded in
    the control block. *)
Record shared_ptr (T : Type) := { object : T; use_count : nat }.
Arguments object {T} _.
Arguments use_count {T} _.

(** [shared_ptr<T>{p}]: the control block is requested from the heap; if
    that request is refused, [p] is deleted before the exception leaves
    the constructor. *)
Definition shared_ptr_ctor {T} (dtor : T -> Process unit) (p : T)
  : Process (shared_ptr T) := fun w =>
  match acquire bad_alloc w with
  | Returned _ w' => Returned {| object := p; use_count := 1 |} w'
  | Uncaught e w' =>
      match dtor p w' with
      | Returned _ w'' => Uncaught e w''
      | other => Uncaught e (final_world other)
      end
  | Undefined w' => Undefined w'
  end.

(** [~shared_ptr]: the last owner destroys the object. *)
Definition shared_ptr_dtor {T} (dtor : T -> Process unit) (this : shared_ptr T)
  : Process unit :=
  if decide (use_count this = 1%nat) then dtor (object this) else mret tt.

(** unique_ptr.cpp *)
Definition useResource : Process unit :=
  resource ← make_unique Resource_ctor;
  unique_ptr_dtor Resource_dtor resource.

Definition unique_ptr_main : Process Z :=
  useResource ;;
  mret 0.

(** make_example.cpp *)
Definition displayValue (value : Z) : Process unit :=
  myClassPtr ← make_unique (MyClass_ctor value);
  object ← arrow myClassPtr;
  display object ;;
  unique_ptr_dtor MyClass_dtor myClassPtr.

Definition make_example_main : Process Z :=
  displayValue 10 ;;
  mret 0.

(** The shared_ptr example. *)
Definition shared_ptr_main : Process Z :=
  p ← new Resource_ctor;
  ptr1 ← shared_ptr_ctor Resource_dtor p;
  shared_ptr_dtor Resource_dtor ptr1 ;;
  mret 0.

End SmartPointers.

(** ** Move semantics *)
Module MoveSemantics.

(** The class has no data members. *)
Inductive MovableClass : Type := movable.

Definition MovableClass_ctor : Process MovableClass :=
  cout_put "Constructor" ;; cout_put endl ;; mret movable.

Definition MovableClass_dtor (this : MovableClass) : Process unit :=
  cout_put "Destructor" ;; cout_put endl.

(** The move constructor and the move assignment operator take a
    reference [other]: the name of an object among the [objects] of the
    calling function.  Each returns, with its result, the objects as it
    leaves them. *)
Definition move_ctor (other : string) (objects : gmap string MovableClass)
  : Process (MovableClass * gmap string MovableClass) :=
  cout_put "Move Constructor" ;; cout_put endl ;;
  mret (movable, objects).

(** [operator=] returns [*this]. *)
Definition move_assign (this other : string) (objects : gmap string MovableClass)
  : Process (string * gmap string MovableClass) :=
  cout_put "Move Assignment Operator" ;; cout_put endl ;;
  mret (this, objects).

(** The end of the lifetime of a local object. *)
Definition destroy (name : string) (objects : gmap string MovableClass)
  : Process (gmap string MovableClass) :=
  this ← defined (objects !! name);
  MovableClass_dtor this ;;
  mret (delete name objects).

Definition move_constructor : Process unit :=
  obj1 ← MovableClass_ctor;
  let objects : gmap string MovableClass := <["obj1" := obj1]> ∅ in
  '(obj2, objects) ← move_ctor "obj1" objects;
  let objects := <["obj2" := obj2]> objects in
  objects ← destroy "obj2" objects;
  objects ← destroy "obj1" objects;
  mret tt.

Definition move_assignment : Process unit :=
  obj1 ← MovableClass_ctor;
  let objects : gmap string MovableClass := <["obj1" := obj1]> ∅ in
  obj2 ← MovableClass_ctor;
  let objects := <["obj2" := obj2]> objects in
  '(_, objects) ← move_assign "obj2" "obj1" objects;
  objects ← destroy "obj2" objects;
  objects ← destroy "obj1" objects;
  mret tt.

Definition main : Process Z :=
  move_constructor ;;
  move_assignment ;;
  mret 0.

End MoveSemantics.

(** ** Threads: two workers print through a mutex-guarded printer *)
Module Threads.

(** A thread is named by a number. *)
Abbreviation tid := nat (only parsing).

Inductive thread_function : Type := lambda | someThreadFunction.

(** What is inserted into the [std::ostringstream]. *)
Inductive piece : Type :=
| Text (s : string)
| ThisThreadId
| Endl.

(** The statements of the example, one instruction each. *)
Inductive instr : Type :=
| TempString (s : string)          (* the std::string bound to the parameter *)
| NewStream                        (* std::ostringstream oss; *)
| Insert (p : piece)               (* oss << p *)
| LockGuard                        (* std::lock_guard<std::mutex> lock(coutMutex); *)
| CoutStr                          (* std::cout << oss.str(); *)
| Unlock                           (* the lock_guard leaves scope *)
| EmplaceThread (f : thread_function)  (* threadsVector.emplace_back(f, ...) *)
| JoinEach                         (* for (auto& thread : threadsVector) *)
| Join (t : tid).                  (* thread.join(); *)

Definition dquote : string := String (Ascii.ascii_of_nat 34) "".

(** The body of [ThreadSafePrinter::printMessage]. *)
Definition printMessage (message : string) : list instr :=
  [ NewStream;
    Insert (Text ("Message: " +:+ dquote));
    Insert (Text message);
    Insert (Text (dquote +:+ " from thread: "));
    Insert ThisThreadId;
    Insert Endl;
    LockGuard;
    CoutStr;
    Unlock ].

(** [printer.printMessage(literal)]. *)
Definition call_printMessage (literal : string) : list instr :=
  TempString literal :: printMessage literal.

Definition body (f : thread_function) : list instr :=
  match f with
  | lambda => call_printMessage "Hello from the lambda function!"
  | someThreadFunction => call_printMessage "Hello from someThreadFunction()!"
  end.

Definition main : list instr :=
  [ EmplaceThread lambda; EmplaceThread someThreadFunction; JoinEach ].

(** [std::ostringstream]: the text in its buffer, the number of characters
    the buffer has room for, and whether an insertion has failed.  The
    buffer is a [std::string] and starts with the room inside the object. *)
Record ostringstream := {
  str : string;
  capacity : nat;
  badbit : bool
}.

Definition ostringstream_ctor : ostringstream :=
  {| str := ""; capacity := small_capacity; badbit := false |}.

(** The buffer requested when the buffer is full: twice the size, and 512
    characters at least (the GNU library). *)
Definition grown (capacity : nat) : nat := Nat.max (2 * capacity) 512.

(** The characters of [s] go into the buffer one after the other; when
    the buffer is full a larger one is requested for the next character.
    A refused request throws [std::bad_alloc] inside the insertion, which
    catches it and sets [badbit]: the characters buffered so far stay and
    the rest of [s] is dropped. *)
Fixpoint sputn (s : string) (o : ostringstream) (supply : list bool)
  : ostringstream * list bool :=
  match s with
  | EmptyString => (o, supply)
  | String c s' =>
      if (String.length (str o) <? capacity o)%nat then
        sputn s'
          {| str := str o +:+ String c ""; capacity := capacity o;
             badbit := badbit o |} supply
      else
        let (refused, supply') := request supply in
        if refused then
          ({| str := str o; capacity := capacity o; badbit := true |}, supply')
        else
          sputn s'
            {| str := str o +:+ String c ""; capacity := grown (capacity o);
               badbit := badbit o |} supply'
  end.

(** [oss << s]: a stream whose [badbit] is set takes nothing more. *)
Definition oss_insert (s : string) (o : ostringstream) (supply : list bool)
  : ostringstream * list bool :=
  if badbit o then (o, supply) else sputn s o supply.

(** A thread: the statements it has still to run, its [oss], and (for the
    launching thread) its [threadsVector]. *)
Record thread := {
  code : list instr;
  oss : ostringstream;
  threadsVector : list tid
}.

(** The process: the mutex with its owner, the world with [std::cout],
    and the threads started so far; a thread is known by its position. *)
Record state := {
  coutMutex : option tid;
  world : World;
  pool : list thread
}.

Inductive event : Type :=
| EvTemp
| EvNew
| EvInsert (p : piece) (refused : bool)
| EvLock
| EvWrite (s : string)
| EvUnlock
| EvSpawn (f : thread_function) (t : tid)
| EvLoop
| EvJoin (t : tid).

Inductive step_result : Type :=
| Blocked
| Stepped (ev : event) (st : state)
| Faulted (e : exception) (st : state).

Inductive result : Type :=
| Running (st : state)
| Terminated (e : exception) (st : state).

Definition finished (th : thread) : bool :=
  match code th with
  | [] => true
  | _ => false
  end.

Section Machine.
(** [operator<<] for [std::thread::id], from the standard library. *)
Variable show_id : tid -> string.

Definition render (t : tid) (p : piece) : string :=
  match p with
  | Text s => s
  | ThisThreadId => show_id t
  | Endl => endl
  end.

Definition with_supply (w : World) (rest : list bool) : World :=
  {| env := env w; cout := cout w; supply := rest |}.

(** One statement of thread [t].  A thread that does not exist, has
    finished, waits for the mutex or waits for the thread it joins is
    blocked.  A statement whose request is refused throws, and nothing
    catches: the process ends with the statement not carried out.  Only
    an insertion into the [std::ostringstream] goes on after a refused
    request, the stream having caught the exception; the event tells
    whether that happened.  The temporary [std::string] and the copy
    that [oss.str()] returns request memory when they are too long to be
    kept inside the object.  [threadsVector.emplace_back] finds the
    vector full at each of the two calls of [main]: it requests storage,
    and then the thread. *)
Definition step (t : tid) (st : state) : step_result :=
  match pool st !! t with
  | None => Blocked
  | Some th =>
      match code th with
      | [] => Blocked
      | i :: rest =>
          let next := {| code := rest; oss := oss th;
                         threadsVector := threadsVector th |} in
          let w := world st in
          match i with
          | TempString s =>
              if (String.length s <=? small_capacity)%nat then
                Stepped EvTemp
                  {| coutMutex := coutMutex st; world := w;
                     pool := <[t := next]> (pool st) |}
              else
              let (refused, supply') := request (supply w) in
              if refused then
                Faulted bad_alloc
                  {| coutMutex := coutMutex st; world := with_supply w supply';
                     pool := pool st |}
              else
                Stepped EvTemp
                  {| coutMutex := coutMutex st; world := with_supply w supply';
                     pool := <[t := next]> (pool st) |}
          | NewStream =>
              Stepped EvNew
                {| coutMutex := coutMutex st; world := w;
                   pool := <[t := {| code := rest; oss := ostringstream_ctor;
                                     threadsVector := threadsVector th |}]> (pool st) |}
          | Insert p =>
              let (oss', supply') := oss_insert (render t p) (oss th) (supply w) in
              Stepped (EvInsert p (negb (badbit (oss th)) && badbit oss'))
                {| coutMutex := coutMutex st; world := with_supply w supply';
                   pool := <[t := {| code := rest; oss := oss';
                                     threadsVector := threadsVector th |}]> (pool st) |}
          | LockGuard =>
              match coutMutex st with
              | None =>
                  Stepped EvLock
                    {| coutMutex := Some t; world := w; pool := <[t := next]> (pool st) |}
              | Some _ => Blocked
              end
          | CoutStr =>
              let text := str (oss th) in
              if (String.length text <=? small_capacity)%nat then
                Stepped (EvWrite text)
                  {| coutMutex := coutMutex st;
                     world := {| env := env w; cout := cout w +:+ text;
                                 supply := supply w |};
                     pool := <[t := next]> (pool st) |}
              else
              let (refused, supply') := request (supply w) in
              if refused then
                Faulted bad_alloc
                  {| coutMutex := coutMutex st; world := with_supply w supply';
                     pool := pool st |}
              else
                Stepped (EvWrite text)
                  {| coutMutex := coutMutex st;
                     world := {| env := env w; cout := cout w +:+ text;
                                 supply := supply' |};
                     pool := <[t := next]> (pool st) |}
          | Unlock =>
              if decide (coutMutex st = Some t) then
                Stepped EvUnlock
                  {| coutMutex := None; world := w; pool := <[t := next]> (pool st) |}
              else Blocked
          | EmplaceThread f =>
              let (refused1, supply1) := request (supply w) in
              let (refused2, supply2) := request supply1 in
              let t' := length (pool st) in
              let started := {| code := body f; oss := ostringstream_ctor;
                                threadsVector := [] |} in
              let launcher := {| code := rest; oss := oss th;
                                 threadsVector := (threadsVector th ++ [t'])%list |} in
              if refused1 then
                Faulted bad_alloc
                  {| coutMutex := coutMutex st; world := with_supply w supply1;
                     pool := pool st |}
              else if refused2 then
                Faulted system_error
                  {| coutMutex := coutMutex st; world := with_supply w supply2;
                     pool := pool st |}
              else
                Stepped (EvSpawn f t')
                  {| coutMutex := coutMutex st; world := with_supply w supply2;
                     pool := (<[t := launcher]> (pool st) ++ [started])%list |}
          | JoinEach =>
              Stepped EvLoop
                {| coutMutex := coutMutex st; world := w;
                   pool := <[t := {| code := (map Join (threadsVector th) ++ rest)%list;
                                     oss := oss th;
                                     threadsVector := threadsVector th |}]> (pool st) |}
          | Join t' =>
              match pool st !! t' with
              | Some joined =>
                  if finished joined then
                    Stepped (EvJoin t')
                      {| coutMutex := coutMutex st; world := w; pool := <[t := next]> (pool st) |}
                  else Blocked
              | None => Blocked
              end
          end
      end
  end.

(** The process under a schedule: the threads named by [sched] take a
    step each, in that order; a blocked thread is passed over.  The first
    refused request ends the process. *)
Fixpoint run (sched : list tid) (st : state) : list (tid * event) * result :=
  match sched with
  | [] => ([], Running st)
  | t :: sched' =>
      match step t st with
      | Blocked => run sched' st
      | Stepped ev st' =>
          let (trace, r) := run sched' st' in ((t, ev) :: trace, r)
      | Faulted e st' => ([], Terminated e st')
      end
  end.

(** The example starts with the launching thread alone. *)
Definition start (w : World) : state :=
  {| coutMutex := None; world := w;
     pool := [ {| code := main; oss := ostringstream_ctor; threadsVector := [] |} ] |}.

(** Any number of threads that call [printMessage], each with the
    messages of its successive calls. *)
Definition callers (messages : list (list string)) (w : World) : state :=
  {| coutMutex := None; world := w;
     pool := map (fun ms => {| code := flat_map printMessage ms;
                               oss := ostringstream_ctor;
                               threadsVector := [] |}) messages |}.

(** *** The vocabulary of the properties *)

Definition state_of (r : result) : state :=
  match r with
  | Running st => st
  | Terminated _ st => st
  end.

(** The events of thread [t] in a trace, in order. *)
Definition events_by (t : tid) (trace : list (tid * event)) : list event :=
  map snd (filter (fun te => bool_decide (te.1 = t)) trace).

(** What the mutex allows: thread [t] may do [ev] while [holder] owns the
    mutex, and the owner afterwards.  Locking needs a free mutex; writing
    to [std::cout] and unlocking need [t] to be the owner; every other
    statement, formatting included, is done while [t] holds no lock. *)
Definition allowed (holder : option tid) (t : tid) (ev : event)
  : option (option tid) :=
  match ev with
  | EvLock => if decide (holder = None) then Some (Some t) else None
  | EvWrite _ => if decide (holder = Some t) then Some holder else None
  | EvUnlock => if decide (holder = Some t) then Some None else None
  | _ => if decide (holder = Some t) then None else Some holder
  end.


(** The same discipline read off the statements a thread has still to
    run, [held] telling whether it owns the mutex now. *)
Fixpoint lock_ok (held : bool) (statements : list instr) : bool :=
  match statements with
  | [] => negb held
  | LockGuard :: rest => negb held && lock_ok true rest
  | CoutStr :: rest => held && lock_ok true rest
  | Unlock :: rest => held && lock_ok false rest
  | _ :: rest => negb held && lock_ok false rest
  end.

(** Statements that neither start nor join a thread. *)
Definition prints (i : instr) : bool :=
  match i with
  | EmplaceThread _ | JoinEach | Join _ => false
  | _ => true
  end.

(** The events thread [t] produces when it runs such statements to the
    end with every request granted, its stream holding [buffer] at
    first. *)
Fixpoint script (t : tid) (buffer : string) (statements : list instr) : list event :=
  match statements with
  | [] => []
  | TempString _ :: rest => EvTemp :: script t buffer rest
  | NewStream :: rest => EvNew :: script t "" rest
  | Insert p :: rest => EvInsert p false :: script t (buffer +:+ render t p) rest
  | LockGuard :: rest => EvLock :: script t buffer rest
  | CoutStr :: rest => EvWrite buffer :: script t buffer rest
  | Unlock :: rest => EvUnlock :: script t buffer rest
  | _ :: rest => script t buffer rest
  end.

(** The complete line of one call. *)
Definition formatted (t : tid) (message : string) : string :=
  "Message: " +:+ dquote +:+ message +:+ dquote +:+ " from thread: " +:+
  show_id t +:+ endl.

(** One call of [printMessage] by thread [t] with every request granted,
    as events: the message is formatted into the private stream, the
    mutex is locked, the buffered line is written once, the mutex is
    unlocked. *)
Definition call_events (t : tid) (message : string) : list event :=
  [ EvNew;
    EvInsert (Text ("Message: " +:+ dquote)) false;
    EvInsert (Text message) false;
    EvInsert (Text (dquote +:+ " from thread: ")) false;
    EvInsert ThisThreadId false;
    EvInsert Endl false;
    EvLock;
    EvWrite (formatted t message);
    EvUnlock ].


End Machine.

(** Thread [t] owns the mutex. *)
Definition holds (st : state) (t : tid) : bool := bool_decide (coutMutex st = Some t).

(** Every thread stands in its statements where the mutex says it does,
    and the owner of the mutex is one of the threads. *)
Definition lock_inv (st : state) : Prop :=
  (forall t th, pool st !! t = Some th -> lock_ok (holds st t) (code th) = true) /\
  (forall t, coutMutex st = Some t -> (t < length (pool st))%nat).


(** A thread that only prints: it neither starts nor joins a thread. *)
Definition printing (th : thread) : Prop := forallb prints (code th) = true.

(** The launching thread and its two workers: how far the launching
    thread is tells how many workers there are and which have finished. *)
Definition main_inv (st : state) : Prop :=
  match pool st with
  | [m] => code m = main /\ threadsVector m = []
  | [m; w1] =>
      code m = [EmplaceThread someThreadFunction; JoinEach] /\
      threadsVector m = [1%nat] /\ printing w1
  | [m; w1; w2] =>
      printing w1 /\ printing w2 /\
      ((code m = [JoinEach] /\ threadsVector m = [1%nat; 2%nat]) \/
       code m = [Join 1; Join 2] \/
       (code m = [Join 2] /\ code w1 = []) \/
       (code m = [] /\ code w1 = [] /\ code w2 = []))
  | _ => False
  end.

(** The workers of the example: the thread at position 1 runs the lambda,
    the thread at position 2 runs [someThreadFunction]. *)
Definition worker (t : tid) (f : thread_function) : Prop :=
  (t = 1%nat /\ f = lambda) \/ (t = 2%nat /\ f = someThreadFunction).

(** The same process in another environment. *)
Definition state_with_env (e : Environment) (st : state) : state :=
  {| coutMutex := coutMutex st; world := with_env e (world st); pool := pool st |}.

Definition result_with_env (e : Environment) (r : result) : result :=
  match r with
  | Running st => Running (state_with_env e st)
  | Terminated x st => Terminated x (state_with_env e st)
  end.

End Threads.

(** ** The examples with a sequential [main] *)
Definition sequential_mains (show_double : Templates.double -> string)
  : list (Process Z) :=
  [ CRTP.main; VirtualShapes.main; Vectors.main; Templates.main show_double;
    SmartPointers.unique_ptr_main; SmartPointers.make_example_main;
    SmartPointers.shared_ptr_main; MoveSemantics.main ].

(** ** Initializer lists: [int sum(const std::initializer_list<int>&)] *)
Module InitializerLists.

(** The range-for loop [for (auto& e : list) total += e;]. *)
Fixpoint sum_loop (total : Z) (list : list Z) : option Z :=
  match list with
  | [] => Some total
  | e :: rest =>
      match CppInt.add total e with
      | Some total' => sum_loop total' rest
      | None => None
      end
  end.

Definition sum (list : list Z) : option Z :=
  let total := 0 in
  sum_loop total list.

(** The mathematical sum of the elements, taken in list order. *)
Definition exact_sum (list : list Z) : Z := fold_left Z.add list 0.

(** Every running total [0 + e1 + ... + ek] is representable as an [int]. *)
Fixpoint running_totals_fit (total : Z) (list : list Z) : bool :=
  match list with
  | [] => true
  | e :: rest => CppInt.in_range (total + e) && running_totals_fit (total + e) rest
  end.

End InitializerLists.

(** ** Range-based for loops: [for (int& x : myArray) x = x*x;] *)
Module RangeFor.

(** [x * y] on [int]: undefined when the product is not representable. *)
Definition mul (x y : Z) : option Z :=
  if CppInt.in_range (x * y) then Some (x * y) else None.

(** The loop from position [i] on, for an array of which [n] elements are
    still to be visited.  [x] is a reference to the element the iterator
    stands at: the assignment goes through it into the array.  The loop
    ends when the iterator has reached the end. *)
Fixpoint square_from (n : nat) (i : nat) (myArray : list Z) : option (list Z) :=
  match n with
  | O => Some myArray
  | S n' =>
      match myArray !! i with
      | Some x =>
          match mul x x with
          | Some y => square_from n' (S i) (<[i := y]> myArray)
          | None => None
          end
      | None => Some myArray
      end
  end.

Definition square_each (myArray : list Z) : option (list Z) :=
  square_from (length myArray) 0 myArray.

(** The square of every element is representable as an [int]. *)
Definition squares_fit (myArray : list Z) : bool :=
  forallb (fun x => CppInt.in_range (x * x)) myArray.

End RangeFor.

(** ** The vocabulary of the further properties *)

(** [std::isnan]. *)
Definition isnan (x : Templates.double) : bool :=
  match x with
  | S754_nan => true
  | _ => false
  end.

(** The world after [n] requests were answered and [text] was written. *)
Definition consumed (w : World) (n : nat) (text : string) : World :=
  {| env := env w; cout := cout w +:+ text; supply := drop n (supply w) |}.

(** The requests of [myVector.emplace_back(x, literal)]: storage when the
    vector is full, and the contents of the argument string and of its
    copy in the member when the literal is too long to be kept inside the
    object. *)
Definition emplace_back_requests (myVector : Vectors.vector) (literal : string)
  : nat :=
  ((if (length (Vectors.elements myVector) <? Vectors.capacity myVector)%nat
    then 0 else 1) +
   (if (String.length literal <=? small_capacity)%nat then 0 else 2))%nat.

(** The line the constructor of [Vectors.MyClass] writes. *)
Definition constructed (x : Z) (y : string) : string :=
  "Constructed MyClass(" +:+ pretty x +:+ ", " +:+ y +:+ ")" +:+ endl.

(** The lines of the constructor and of the destructor of [Resource]. *)
Definition acquired : string := "Resource acquired" +:+ endl.
Definition released : string := "Resource released" +:+ endl.

(** Runs of the threads example, seen from outside. *)
Module ThreadRuns.
Import Threads.

(** Every thread has run to its end. *)
Definition all_finished (st : state) : bool := forallb finished (pool st).

(** [s] is the beginning of [line]. *)
Definition begins (s line : string) : Prop := exists rest, line = s +:+ rest.

(** What happened, set against what happens when every request is
    granted: the same event, except that a write may be of the beginning
    of the text only, and that an insertion may have met a refused
    request. *)
Definition truncates (actual intended : event) : Prop :=
  match actual, intended with
  | EvWrite s, EvWrite line => begins s line
  | EvInsert p _, EvInsert p' _ => p = p'
  | _, _ => actual = intended
  end.

(** The stream holds the beginning of [buffer], and all of it unless an
    insertion has failed. *)
Definition tracks (o : ostringstream) (buffer : string) : Prop :=
  begins (str o) buffer /\ (badbit o = false -> str o = buffer).

(** The refused requests among the answers [used]. *)
Definition refusals (used : list bool) : nat :=
  sum_list_with (fun refused : bool => if refused then 1%nat else 0%nat) used.

(** From [w] to [w'] requests were answered, [n] of them refused. *)
Definition answered (w w' : World) (n : nat) : Prop :=
  exists used, supply w = (used ++ supply w')%list /\ refusals used = n.

(** The refused requests that the insertions of a trace went on after. *)
Definition absorbs (ev : event) : nat :=
  match ev with
  | EvInsert _ true => 1
  | _ => 0
  end.

Definition absorbed (trace : list (tid * event)) : nat :=
  sum_list_with (fun te => absorbs te.2) trace.

(** No thread starts or joins a thread. *)
Definition all_printing (st : state) : Prop := Forall printing (pool st).

(** The steps a thread has still to take and to cause: one for each of
    its statements, those of the body of each thread it starts, and one
    join for each thread in its [threadsVector] when it enters the loop. *)
Fixpoint weight (joinable : nat) (statements : list instr) : nat :=
  match statements with
  | [] => 0
  | EmplaceThread f :: rest => S (length (body f) + weight (S joinable) rest)
  | JoinEach :: rest => S (joinable + weight joinable rest)
  | _ :: rest => S (weight joinable rest)
  end.

Definition thread_weight (th : thread) : nat :=
  weight (length (threadsVector th)) (code th).

Definition remaining (st : state) : nat := sum_list_with thread_weight (pool st).

(** What a trace wrote to [std::cout], with the writing thread. *)
Fixpoint written (trace : list (tid * event)) : list (tid * string) :=
  match trace with
  | [] => []
  | (t, EvWrite s) :: rest => (t, s) :: written rest
  | _ :: rest => written rest
  end.

Fixpoint writes (events : list event) : list string :=
  match events with
  | [] => []
  | EvWrite s :: rest => s :: writes rest
  | _ :: rest => writes rest
  end.

(** The texts written by thread [t], in order. *)
Definition lines_by (t : tid) (lines : list (tid * string)) : list string :=
  map snd (filter (fun l => bool_decide (l.1 = t)) lines).

(** The texts one after the other. *)
Definition joined (lines : list string) : string := foldr String.append "" lines.

(** The events of a launching thread from its statements on, [next] being
    the number the next thread gets and [started] its [threadsVector]. *)
Fixpoint launches (next : tid) (started : list tid) (statements : list instr)
  : list event :=
  match statements with
  | [] => []
  | EmplaceThread f :: rest =>
      EvSpawn f next :: launches (S next) (started ++ [next])%list rest
  | JoinEach :: rest => EvLoop :: (map EvJoin started ++ launches next started rest)%list
  | Join t :: rest => EvJoin t :: launches next started rest
  | _ :: rest => launches next started rest
  end.

End ThreadRuns.

(** * Properties *)

(** ** Arithmetic on [int] *)
Section IntFacts.
Import CppInt.

Lemma in_range_spec z : in_range z = true <-> int_min <= z <= int_max.
Proof. unfold in_range. rewrite andb_true_iff, !Z.leb_le. tauto. Qed.

Lemma add_Some a b r : add a b = Some r <-> r = a + b /\ in_range (a + b) = true.
Proof.
  unfold add. destruct (in_range (a + b)) eqn:E; split.
  - intros [= <-]. auto.
  - intros [-> _]. reflexivity.
  - discriminate.
  - intros [_ ?]. discriminate.
Qed.

End IntFacts.

(** ** Strings *)

Lemma append_cons (c : Ascii.ascii) (s t : string) :
  String c s +:+ t = String c (s +:+ t).
Proof. reflexivity. Qed.

Lemma append_assoc (s1 s2 s3 : string) : (s1 +:+ s2) +:+ s3 = s1 +:+ (s2 +:+ s3).
Proof.
  induction s1 as [|c s1 IH]; [reflexivity|].
  rewrite !append_cons. f_equal. exact IH.
Qed.

Lemma append_empty_r (s : string) : s +:+ "" = s.
Proof.
  induction s as [|c s IH]; [reflexivity|].
  rewrite append_cons. f_equal. exact IH.
Qed.

(** ** How the properties of a process compose *)
Section ProcessFacts.

Lemma granted_refl w : granted w w.
Proof. exists []. split; [constructor|reflexivity]. Qed.

Lemma granted_trans w1 w2 w3 : granted w1 w2 -> granted w2 w3 -> granted w1 w3.
Proof.
  intros (u1 & Hu1 & E1) (u2 & Hu2 & E2). exists (u1 ++ u2)%list. split.
  - apply Forall_app; auto.
  - rewrite E1, E2, app_assoc. reflexivity.
Qed.

Lemma granted_refused w1 w2 w3 :
  granted w1 w2 -> refused_last w2 w3 -> refused_last w1 w3.
Proof.
  intros (u1 & Hu1 & E1) (u2 & Hu2 & E2). exists (u1 ++ u2)%list. split.
  - apply Forall_app; auto.
  - rewrite E1, E2, app_assoc. reflexivity.
Qed.

Lemma request_cases (s : list bool) :
  (s = [] /\ request s = (false, [])) \/
  (exists refused rest, s = refused :: rest /\ request s = (refused, rest)).
Proof. destruct s as [|r rest]; [left|right]; eauto. Qed.

Lemma fails_fast_ret {A} (a : A) : fails_fast (mret a : Process A).
Proof. intros w. apply granted_refl. Qed.

Lemma fails_fast_bind_with {A B} (Q : A -> Prop) (m : Process A) (k : A -> Process B) :
  fails_fast m -> returns Q m -> (forall a, Q a -> fails_fast (k a)) ->
  fails_fast (m ≫= k).
Proof.
  intros Hm HQ Hk w. unfold mbind, Process_bind. specialize (Hm w).
  destruct (m w) as [a w1|e w1|w1] eqn:Em; [|exact Hm|exact Hm].
  specialize (Hk a (HQ _ _ _ Em) w1). destruct (k a w1) as [b w2|e w2|w2].
  - eapply granted_trans; eauto.
  - eapply granted_refused; eauto.
  - exact Hk.
Qed.

Lemma fails_fast_cout_put s : fails_fast (cout_put s).
Proof. intros w. exists []. split; [constructor|reflexivity]. Qed.

Lemma fails_fast_acquire e : fails_fast (acquire e).
Proof.
  intros w. unfold acquire.
  destruct (request_cases (supply w)) as [[E ->]|(r & rest & E & ->)].
  - simpl. exists []. split; [constructor|]. simpl. exact E.
  - destruct r; simpl.
    + exists []. split; [constructor|]. exact E.
    + exists [false]. split; [repeat constructor|]. exact E.
Qed.

Lemma fails_fast_defined {A} (a : A) : fails_fast (defined (Some a)).
Proof. intros w. apply granted_refl. Qed.

Lemma stdout_only_ret {A} (a : A) : stdout_only (mret a : Process A).
Proof.
  split; [|reflexivity]. intros w. split; [reflexivity|].
  exists "". simpl. now rewrite append_empty_r.
Qed.

Lemma stdout_only_bind_with {A B} (Q : A -> Prop) (m : Process A) (k : A -> Process B) :
  stdout_only m -> returns Q m -> (forall a, Q a -> stdout_only (k a)) ->
  stdout_only (m ≫= k).
Proof.
  intros [Hm1 Hm2] HQ Hk. split.
  - intros w. unfold mbind, Process_bind. specialize (Hm1 w).
    destruct (m w) as [a w1|e w1|w1] eqn:Em; [|exact Hm1|exact Hm1].
    simpl in Hm1. destruct Hm1 as [He1 [t1 Ht1]].
    destruct (Hk a (HQ _ _ _ Em)) as [Hk1 _]. destruct (Hk1 w1) as [He2 [t2 Ht2]].
    split; [congruence|]. exists (t1 +:+ t2).
    rewrite Ht2, Ht1. apply append_assoc.
  - intros w e. unfold mbind, Process_bind. rewrite Hm2.
    destruct (m w) as [a w1|x w1|w1] eqn:Em; simpl; [|reflexivity|reflexivity].
    destruct (Hk a (HQ _ _ _ Em)) as [_ Hk2]. apply Hk2.
Qed.

Lemma stdout_only_cout_put s : stdout_only (cout_put s).
Proof.
  split; [|reflexivity]. intros w. split; [reflexivity|]. now exists s.
Qed.

Lemma stdout_only_acquire e : stdout_only (acquire e).
Proof.
  split.
  - intros w. unfold acquire. destruct (request (supply w)) as [[] rest]; simpl;
      (split; [reflexivity|]); exists ""; now rewrite append_empty_r.
  - intros w e'. unfold acquire. simpl.
    destruct (request (supply w)) as [[] rest]; reflexivity.
Qed.

Lemma stdout_only_defined {A} (o : option A) : stdout_only (defined o).
Proof.
  split.
  - intros w. destruct o; simpl; (split; [reflexivity|]); exists "";
      now rewrite append_empty_r.
  - intros w e. destruct o; reflexivity.
Qed.

Lemma hermetic_ret {A} (a : A) : hermetic (mret a : Process A).
Proof. split; [apply fails_fast_ret|apply stdout_only_ret]. Qed.

Lemma hermetic_bind_with {A B} (Q : A -> Prop) (m : Process A) (k : A -> Process B) :
  hermetic m -> returns Q m -> (forall a, Q a -> hermetic (k a)) ->
  hermetic (m ≫= k).
Proof.
  intros [Hf Hs] HQ Hk. split.
  - apply (fails_fast_bind_with Q); [exact Hf|exact HQ|]. intros a Ha. now apply Hk.
  - apply (stdout_only_bind_with Q); [exact Hs|exact HQ|]. intros a Ha. now apply Hk.
Qed.

Lemma hermetic_bind {A B} (m : Process A) (k : A -> Process B) :
  hermetic m -> (forall a, hermetic (k a)) -> hermetic (m ≫= k).
Proof.
  intros Hm Hk. apply (hermetic_bind_with (fun _ => True)); auto.
  intros w a w' _. exact I.
Qed.

Lemma hermetic_cout_put s : hermetic (cout_put s).
Proof. split; [apply fails_fast_cout_put|apply stdout_only_cout_put]. Qed.

Lemma hermetic_acquire e : hermetic (acquire e).
Proof. split; [apply fails_fast_acquire|apply stdout_only_acquire]. Qed.

Lemma hermetic_defined {A} (a : A) : hermetic (defined (Some a)).
Proof. split; [apply fails_fast_defined|apply stdout_only_defined]. Qed.

Lemma hermetic_std_string s : hermetic (std_string s).
Proof.
  unfold std_string. destruct (String.length s <=? small_capacity)%nat.
  - apply hermetic_ret.
  - apply hermetic_bind; [apply hermetic_acquire|]. intros _. apply hermetic_ret.
Qed.

End ProcessFacts.

Create HintDb hermetic.

#[local] Hint Resolve hermetic_ret hermetic_cout_put hermetic_acquire
  hermetic_defined hermetic_std_string : hermetic.

(** Takes a sequence of statements apart, one bind at a time. *)
Ltac hermetic_steps :=
  repeat first
    [ solve [auto with hermetic]
    | apply hermetic_bind; [|intros ?]
    | progress cbv zeta ].

(** ** The sequential examples, one by one *)
Section ExampleFacts.

Lemma hermetic_prints {A} (m : Process A) (a : A) (text : string) :
  (forall w, m w = Returned a (printed w text)) -> hermetic m.
Proof.
  intros Hm. split; [|split].
  - intros w. rewrite Hm. exists []. split; [constructor|reflexivity].
  - intros w. rewrite Hm. simpl. split; [reflexivity|]. now exists text.
  - intros w e. rewrite !Hm. reflexivity.
Qed.

Lemma hermetic_crtp_main : hermetic CRTP.main.
Proof.
  unfold CRTP.main, CRTP.render, CRTP.draw, CRTP.drawImpl,
    CRTP.Circle_Shape, CRTP.Square_Shape.
  hermetic_steps.
Qed.

Lemma hermetic_virtual_main : hermetic VirtualShapes.main.
Proof.
  unfold VirtualShapes.main, VirtualShapes.render, VirtualShapes.draw.
  hermetic_steps.
Qed.

Lemma hermetic_room_for_one v : hermetic (Vectors.room_for_one v).
Proof.
  unfold Vectors.room_for_one.
  destruct (length (Vectors.elements v) <? Vectors.capacity v)%nat; hermetic_steps.
Qed.

#[local] Hint Resolve hermetic_room_for_one : hermetic.

Lemma hermetic_emplace_back v x literal : hermetic (Vectors.emplace_back v x literal).
Proof. unfold Vectors.emplace_back, Vectors.MyClass_ctor. hermetic_steps. Qed.

#[local] Hint Resolve hermetic_emplace_back : hermetic.

Lemma hermetic_vectors_main : hermetic Vectors.main.
Proof. unfold Vectors.main. hermetic_steps. Qed.

Lemma hermetic_templates_main show_double : hermetic (Templates.main show_double).
Proof.
  unfold Templates.main. hermetic_steps.
  change (Templates.sum 1 [2; 3; 4; 5; 6; 7; 8; 9; 10]) with (Some 55).
  apply hermetic_defined.
Qed.

Import SmartPointers.

Lemma hermetic_Resource_ctor : hermetic Resource_ctor.
Proof. unfold Resource_ctor. hermetic_steps. Qed.

Lemma hermetic_Resource_dtor this : hermetic (Resource_dtor this).
Proof. unfold Resource_dtor. hermetic_steps. Qed.

Lemma hermetic_new {T} (ctor : Process T) : hermetic ctor -> hermetic (new ctor).
Proof. intros Hc. unfold new. hermetic_steps. Qed.

Lemma make_unique_owns {T} (ctor : Process T) : returns is_Some (make_unique ctor).
Proof.
  intros w a w'. unfold make_unique, mbind, Process_bind.
  destruct (new ctor w) as [object w1|e w1|w1]; [|discriminate|discriminate].
  intros [= <- _]. eauto.
Qed.

Lemma hermetic_make_unique {T} (ctor : Process T) :
  hermetic ctor -> hermetic (make_unique ctor).
Proof.
  intros Hc. unfold make_unique, new. hermetic_steps.
Qed.

Lemma hermetic_unique_ptr_dtor {T} (dtor : T -> Process unit) (this : unique_ptr T) :
  (forall object, hermetic (dtor object)) -> hermetic (unique_ptr_dtor dtor this).
Proof. intros Hd. destruct this; simpl; [apply Hd|apply hermetic_ret]. Qed.

#[local] Hint Resolve hermetic_Resource_ctor hermetic_Resource_dtor hermetic_new
  hermetic_make_unique hermetic_unique_ptr_dtor : hermetic.

Lemma hermetic_unique_ptr_main : hermetic unique_ptr_main.
Proof. unfold unique_ptr_main, useResource. hermetic_steps. Qed.

Lemma hermetic_make_example_main : hermetic make_example_main.
Proof.
  unfold make_example_main, displayValue.
  apply hermetic_bind; [|intros _; apply hermetic_ret].
  apply (hermetic_bind_with is_Some).
  - apply hermetic_make_unique. unfold MyClass_ctor. apply hermetic_ret.
  - apply make_unique_owns.
  - intros myClassPtr [object ->]. unfold arrow, display.
    hermetic_steps. apply hermetic_ret.
Qed.

Lemma hermetic_shared_ptr_ctor (p : Resource) :
  hermetic (shared_ptr_ctor Resource_dtor p).
Proof.
  split; [|split].
  - intros w. unfold shared_ptr_ctor. pose proof (fails_fast_acquire bad_alloc w) as Ha.
    destruct (acquire bad_alloc w) as [[] w1|e w1|w1]; simpl; [exact Ha| |exact Ha].
    destruct Ha as (used & Hused & E). exists used. split; [exact Hused|exact E].
  - intros w. unfold shared_ptr_ctor.
    destruct (stdout_only_acquire bad_alloc) as [Ha _]. specialize (Ha w).
    destruct (acquire bad_alloc w) as [[] w1|e w1|w1]; simpl in *;
      [exact Ha| |exact Ha].
    destruct Ha as [He [t Ht]]. split; [exact He|].
    exists (t +:+ ("Resource released" +:+ endl)).
    rewrite Ht. apply append_assoc.
  - intros w e. unfold shared_ptr_ctor.
    destruct (stdout_only_acquire bad_alloc) as [_ Ha]. rewrite Ha.
    destruct (acquire bad_alloc w) as [[] w1|x w1|w1]; reflexivity.
Qed.

Lemma hermetic_shared_ptr_dtor (this : shared_ptr Resource) :
  hermetic (shared_ptr_dtor Resource_dtor this).
Proof.
  unfold shared_ptr_dtor. case_decide; [apply hermetic_Resource_dtor|apply hermetic_ret].
Qed.

#[local] Hint Resolve hermetic_shared_ptr_ctor hermetic_shared_ptr_dtor : hermetic.

Lemma hermetic_shared_ptr_main : hermetic shared_ptr_main.
Proof. unfold shared_ptr_main. hermetic_steps. Qed.

Import MoveSemantics.

Lemma move_main_prints (w : World) :
  MoveSemantics.main w =
  Returned 0
    (printed w
       ("Constructor" +:+ endl +:+ "Move Constructor" +:+ endl +:+
        "Destructor" +:+ endl +:+ "Destructor" +:+ endl +:+
        "Constructor" +:+ endl +:+ "Constructor" +:+ endl +:+
        "Move Assignment Operator" +:+ endl +:+
        "Destructor" +:+ endl +:+ "Destructor" +:+ endl)).
Proof.
  unfold MoveSemantics.main, move_constructor, move_assignment, destroy,
    move_ctor, move_assign, MovableClass_ctor, MovableClass_dtor.
  unfold mbind, Process_bind. cbn.
  rewrite lookup_insert_eq. cbn.
  rewrite lookup_delete_ne by done. rewrite lookup_insert_ne by done.
  rewrite lookup_insert_eq. cbn.
  unfold printed, mret, Process_ret. f_equal. f_equal.
  rewrite !append_assoc. reflexivity.
Qed.

Lemma hermetic_move_main : hermetic MoveSemantics.main.
Proof. eapply hermetic_prints. apply move_main_prints. Qed.

(** *** What the examples print *)

(** With 3.5 shown the way [operator<<] shows it by default. *)
Example templates_main_prints :
  Templates.main (fun _ => "3.5") empty_world =
  Returned 0
    (printed empty_world
       ("Larger int: 10" +:+ endl +:+
        "Larger double: 3.5" +:+ endl +:+
        "string2: Hello World" +:+ endl +:+
        "Arity of int: 2" +:+ endl +:+
        "Sum: 55" +:+ endl)).
Proof. reflexivity. Qed.

Example vectors_main_prints :
  Vectors.main empty_world =
  Returned 0
    (printed empty_world
       ("Constructed MyClass(1, Apple)" +:+ endl +:+
        "Constructed MyClass(2, Banana)" +:+ endl +:+
        "Constructed MyClass(3, Cherry)" +:+ endl)).
Proof. reflexivity. Qed.

Example make_example_main_prints :
  SmartPointers.make_example_main empty_world =
  Returned 0 (printed empty_world ("Value: 10" +:+ endl)).
Proof. reflexivity. Qed.

Example unique_ptr_main_prints :
  SmartPointers.unique_ptr_main empty_world =
  Returned 0
    (printed empty_world
       ("Resource acquired" +:+ endl +:+ "Resource released" +:+ endl)).
Proof. reflexivity. Qed.

Example shared_ptr_main_prints :
  SmartPointers.shared_ptr_main empty_world =
  Returned 0
    (printed empty_world
       ("Resource acquired" +:+ endl +:+ "Resource released" +:+ endl)).
Proof. reflexivity. Qed.

(** The control block is refused: the resource is released before the
    exception leaves the constructor, and the process ends. *)
Example shared_ptr_control_block_refused :
  SmartPointers.shared_ptr_main
    {| env := env empty_world; cout := ""; supply := [false; true] |} =
  Uncaught bad_alloc
    (printed empty_world
       ("Resource acquired" +:+ endl +:+ "Resource released" +:+ endl)).
Proof. reflexivity. Qed.

(** The third element cannot be stored: two lines were printed. *)
Example vectors_third_refused :
  Vectors.main
    {| env := env empty_world; cout := ""; supply := [false; false; true] |} =
  Uncaught bad_alloc
    (printed empty_world
       ("Constructed MyClass(1, Apple)" +:+ endl +:+
        "Constructed MyClass(2, Banana)" +:+ endl)).
Proof. reflexivity. Qed.

End ExampleFacts.

Section TemplateFacts.
Import Templates.

Example arity_empty : arity [] = 0.
Proof. reflexivity. Qed.

Example sum_single : sum 7 [] = Some 7.
Proof. reflexivity. Qed.

(** C3: the arity template instantiated with the two type parameters
    [int] and [float] has a [value] member equal to 2. *)
Theorem arity_int_float : arity [t_int; t_float] = 2.
Proof. reflexivity. Qed.

(** C2: the variadic-template [sum] applied to the ten integer arguments
    1 through 10 returns 55. *)
Theorem sum_1_to_10 : sum 1 [2; 3; 4; 5; 6; 7; 8; 9; 10] = Some 55.
Proof. vm_compute. reflexivity. Qed.

#[export] Instance int_Lawful : Lawful Z.
Proof. intros a b. simpl. rewrite Z.eqb_eq, Z.ltb_ge. lia. Qed.

#[export] Instance string_Lawful : Lawful string.
Proof.
  intros a b. simpl. rewrite String.eqb_eq. intros ->.
  unfold String.ltb. pose proof (String.compare_antisym b b) as Hsym.
  destruct (String.compare b b); simpl in Hsym; try discriminate; reflexivity.
Qed.

Lemma SFcompare_eq_not_lt x y :
  SFcompare x y = Some Eq -> SFcompare y x <> Some Lt.
Proof.
  destruct x as [sx|sx| |sx mx ex], y as [sy|sy| |sy my ey]; simpl;
    try discriminate; try (destruct sx, sy; discriminate).
  destruct sx, sy; try discriminate.
  all: destruct (Z.compare_spec ex ey) as [->|?|?]; try discriminate.
  all: rewrite Z.compare_refl.
  all: change (PosDef.Pos.compare_cont Eq mx my) with (Pos.compare mx my).
  all: change (PosDef.Pos.compare_cont Eq my mx) with (Pos.compare my mx).
  all: destruct (Pos.compare_spec mx my) as [->|?|?]; simpl; try discriminate.
  all: rewrite Pos.compare_refl; discriminate.
Qed.

#[export] Instance double_Lawful : Lawful double.
Proof.
  intros a b. simpl. unfold SFeqb, SFltb.
  pose proof (SFcompare_eq_not_lt a b) as H.
  destruct (SFcompare a b) as [[]|]; try discriminate.
  intros _. destruct (SFcompare b a) as [[]|]; try reflexivity.
  now destruct H.
Qed.

Example getLarger_doubles :
  let doubles : string -> double :=
    <["double2" := double_2_5]> (<["double1" := double_3_5]> (fun _ => S754_zero false)) in
  getLarger doubles "double1" "double2" = "double1".
Proof. reflexivity. Qed.

Example getLarger_ints :
  let ints : string -> Z := <["int2" := 10]> (<["int1" := 5]> (fun _ => 0)) in
  getLarger ints "int1" "int2" = "int2".
Proof. reflexivity. Qed.

Example getLarger_strings :
  let strings : string -> string :=
    <["string2" := "World"]> (<["string1" := "Hello"]> (fun _ => "")) in
  getLarger strings "string1" "string2" = "string2".
Proof. reflexivity. Qed.

Lemma getLarger_cases {Loc T} `{Comparable T} (mem : Loc -> T) (a b : Loc) :
  getLarger mem a b = if greater (mem a) (mem b) then a else b.
Proof. reflexivity. Qed.

(** C8: for two objects [a] and [b] of the same type, [getLarger(a, b)]
    returns a reference to [b] whenever [a > b] is false; in particular
    when the two compare equal, be it that neither is greater than the
    other or, for a type whose [==] and [>] agree, that [a == b].
    Assigning through the returned reference then changes [b], and
    changes no other object, so never [a]. *)
Theorem getLarger_second_unless_greater {Loc T} `{EqDecision Loc} `{Comparable T}
    (mem : Loc -> T) (a b : Loc) (v : T) :
  let assigned := <[getLarger mem a b := v]> mem in
  let to_second :=
    getLarger mem a b = b /\ assigned b = v /\
    (a <> b -> assigned a = mem a) /\
    (forall l, l <> b -> assigned l = mem l) in
  (greater (mem a) (mem b) = false -> to_second) /\
  (greater (mem a) (mem b) = false /\ greater (mem b) (mem a) = false ->
   to_second) /\
  (Lawful T -> equal (mem a) (mem b) = true -> to_second).
Proof.
  intros assigned to_second.
  assert (Hgt : greater (mem a) (mem b) = false -> to_second).
  { intros Hgt. subst to_second assigned.
    rewrite getLarger_cases, Hgt.
    split; [reflexivity|]. split; [apply fn_lookup_insert|].
    split; intros; apply fn_lookup_insert_ne; congruence. }
  split; [exact Hgt|]. split.
  - intros [Hab _]. apply Hgt, Hab.
  - intros Hlaw Heq. apply Hgt, Hlaw, Heq.
Qed.

Lemma getLarger_second_unless_greater_witness :
  let mem : bool -> Z := fun l => 5 in
  (greater (mem true) (mem false) = false /\ equal (mem true) (mem false) = true) /\
  getLarger mem true false = false /\
  (<[getLarger mem true false := 7]> mem) false = 7 /\
  (<[getLarger mem true false := 7]> mem) true = 5.
Proof.
  intros mem. split; [split; reflexivity|].
  destruct (getLarger_second_unless_greater mem true false 7) as (Hgt & _ & Heq).
  destruct (Hgt eq_refl) as (Hret & Hb & Ha & _).
  destruct (Heq int_Lawful eq_refl) as (Hret' & _).
  split; [exact Hret'|]. split; [exact Hb|].
  apply Ha. discriminate.
Defined.

End TemplateFacts.

Section ShapeFacts.

Example virtual_main_prints (w : World) :
  cout (final_world (VirtualShapes.main w)) =
  (cout w +:+ ("Drawing Circle" +:+ endl)) +:+ ("Drawing Square" +:+ endl).
Proof. reflexivity. Qed.

(** C4: running the main function of the CRTP shape example prints the
    line Drawing Circle first and the line Drawing Square second, in that
    order, and returns 0. *)
Theorem crtp_main_prints (w : World) :
  CRTP.main w =
  Returned 0
    {| env := env w;
       cout := (cout w +:+ ("Drawing Circle" +:+ endl)) +:+ ("Drawing Square" +:+ endl);
       supply := supply w |}.
Proof. reflexivity. Qed.

End ShapeFacts.

Section MoveFacts.
Import MoveSemantics.

(** C9: the move constructor and the move assignment operator of
    [MovableClass] read and modify no object data: every object, the
    moved-from one included, is left as it was (and so remains usable),
    whatever the objects hold the only effect is the line printed, and the
    move assignment operator returns a reference to its left-hand operand. *)
Theorem move_operations_leave_objects (this other : string)
    (objects : gmap string MovableClass) (w : World) :
  move_ctor other objects w =
    Returned (movable, objects) (printed (printed w "Move Constructor") endl) /\
  move_assign this other objects w =
    Returned (this, objects) (printed (printed w "Move Assignment Operator") endl).
Proof. split; reflexivity. Qed.

End MoveFacts.

Section InitializerListFacts.
Import InitializerLists.

Example sum_123 : sum [1; 2; 3] = Some 6.
Proof. reflexivity. Qed.

Lemma sum_loop_exact list : forall total,
  running_totals_fit total list = true ->
  sum_loop total list = Some (fold_left Z.add list total).
Proof.
  induction list as [|e rest IH]; intros total Hfit; simpl in *.
  - reflexivity.
  - apply andb_true_iff in Hfit as [Hr Hrest].
    unfold CppInt.add. rewrite Hr. apply IH, Hrest.
Qed.

(** C10, as stated, fails: for the list {2147483647, 1}, whose elements
    are both [int] values, the function does not return the exact sum
    2147483648 (the addition overflows [int]). *)
Lemma sum_overflow_counterexample :
  Forall (fun e => CppInt.in_range e = true) [2147483647; 1] /\
  exact_sum [2147483647; 1] = 2147483648 /\
  sum [2147483647; 1] <> Some (exact_sum [2147483647; 1]).
Proof.
  split; [repeat constructor|]. split; [reflexivity|].
  vm_compute. discriminate.
Qed.

(** C10, amended: for every list whose running totals, accumulated in list
    order from 0, all fit in an [int], [sum] returns the exact integer sum
    of the elements; in particular it returns 0 for the empty list. *)
Theorem sum_exact_when_totals_fit (list : list Z) :
  running_totals_fit 0 list = true ->
  sum list = Some (exact_sum list) /\ sum [] = Some 0.
Proof.
  intros Hfit. split; [|reflexivity].
  unfold sum, exact_sum. apply sum_loop_exact, Hfit.
Qed.

Lemma sum_exact_when_totals_fit_witness :
  running_totals_fit 0 [1; 2; 3] = true /\
  (sum [1; 2; 3] = Some (exact_sum [1; 2; 3]) /\ sum [] = Some 0).
Proof.
  split; [reflexivity|].
  apply (sum_exact_when_totals_fit [1; 2; 3]). reflexivity.
Defined.

End InitializerListFacts.

(** ** The string stream *)
Section StreamFacts.
Import Threads.
Import ThreadRuns.

Lemma refusals_app u1 u2 : refusals (u1 ++ u2) = (refusals u1 + refusals u2)%nat.
Proof. unfold refusals. apply sum_list_with_app. Qed.

Lemma refusals_granted used : Forall (eq false) used -> refusals used = 0%nat.
Proof. induction 1 as [|b l <- _ IH]; [reflexivity|exact IH]. Qed.

Lemma granted_refusals used : refusals used = 0%nat -> Forall (eq false) used.
Proof.
  induction used as [|[] l IH]; simpl; [constructor|discriminate|].
  intros H. constructor; [reflexivity|now apply IH].
Qed.

Lemma begins_refl s : begins s s.
Proof. exists "". now rewrite append_empty_r. Qed.

Lemma begins_app s line more : begins s line -> begins s (line +:+ more).
Proof. intros [rest ->]. exists (rest +:+ more). apply append_assoc. Qed.

(** What [sputn] does to the stream and to the supply: it takes a
    beginning of [s], all of it unless a request was refused, and the
    refused request is the last one it made. *)
Lemma sputn_spec s : forall o l,
  exists taken rest used,
    s = taken +:+ rest /\
    str (sputn s o l).1 = str o +:+ taken /\
    l = (used ++ (sputn s o l).2)%list /\
    ((badbit (sputn s o l).1 = badbit o /\ rest = "" /\ Forall (eq false) used) \/
     (badbit (sputn s o l).1 = true /\ rest <> "" /\
      exists granted, used = (granted ++ [true])%list /\ Forall (eq false) granted)).
Proof.
  induction s as [|c s IH]; intros o l.
  - exists "", "", []. simpl. split; [reflexivity|].
    split; [now rewrite append_empty_r|]. split; [reflexivity|].
    left. split; [reflexivity|]. split; [reflexivity|constructor].
  - cbn [sputn]. destruct (String.length (str o) <? capacity o)%nat.
    + destruct (IH {| str := str o +:+ String c ""; capacity := capacity o;
                      badbit := badbit o |} l)
        as (taken & rest & used & -> & Hstr & Hl & Hcase).
      exists (String c taken), rest, used. simpl in Hstr.
      rewrite Hstr, append_assoc. auto.
    + destruct l as [|[] l]; cbn [request].
      * destruct (IH {| str := str o +:+ String c ""; capacity := grown (capacity o);
                        badbit := badbit o |} [])
          as (taken & rest & used & -> & Hstr & Hl & Hcase).
        exists (String c taken), rest, used. simpl in Hstr.
        rewrite Hstr, append_assoc. auto.
      * exists "", (String c s), [true]. simpl. rewrite append_empty_r.
        split; [reflexivity|]. split; [reflexivity|]. split; [reflexivity|].
        right. split; [reflexivity|]. split; [discriminate|]. exists []. auto.
      * destruct (IH {| str := str o +:+ String c ""; capacity := grown (capacity o);
                        badbit := badbit o |} l)
          as (taken & rest & used & -> & Hstr & Hl & Hcase).
        exists (String c taken), rest, (false :: used). simpl in Hstr.
        rewrite Hstr, append_assoc. split; [reflexivity|]. split; [reflexivity|].
        split; [simpl; now rewrite <- Hl|].
        destruct Hcase as [(Hb & -> & Hu)|(Hb & Hrest & granted & -> & Hg)].
        -- left. auto.
        -- right. split; [exact Hb|]. split; [exact Hrest|].
           exists (false :: granted). auto.
Qed.

Lemma oss_insert_tracks s o l buffer :
  tracks o buffer -> tracks (oss_insert s o l).1 (buffer +:+ s).
Proof.
  intros [Hbegin Hgood]. unfold oss_insert.
  destruct (badbit o) eqn:Hbad.
  - simpl. split; [now apply begins_app|]. congruence.
  - specialize (Hgood eq_refl).
    destruct (sputn_spec s o l) as (taken & rest & used & -> & Hstr & _ & Hcase).
    split.
    + exists rest. rewrite Hstr, <- Hgood. symmetry. apply append_assoc.
    + intros Hb. destruct Hcase as [(_ & -> & _)|(Hb' & _)]; [|congruence].
      rewrite Hstr, Hgood, append_empty_r. reflexivity.
Qed.

Lemma oss_insert_answers s o l :
  exists used, l = (used ++ (oss_insert s o l).2)%list /\
    refusals used =
    absorbs (EvInsert (Text s) (negb (badbit o) && badbit (oss_insert s o l).1)).
Proof.
  unfold oss_insert. destruct (badbit o) eqn:Hbad.
  - exists []. auto.
  - destruct (sputn_spec s o l) as (taken & rest & used & _ & _ & Hl & Hcase).
    exists used. split; [exact Hl|].
    destruct Hcase as [(Hb & _ & Hu)|(Hb & _ & granted & -> & Hg)].
    + rewrite Hb, Hbad. simpl. now apply refusals_granted.
    + rewrite Hb. simpl. rewrite refusals_app, (refusals_granted _ Hg). reflexivity.
Qed.

Lemma oss_insert_granted s o l :
  Forall (eq false) l -> badbit (oss_insert s o l).1 = badbit o.
Proof.
  intros Hall. unfold oss_insert. destruct (badbit o) eqn:Hbad; [exact Hbad|].
  destruct (sputn_spec s o l) as (taken & rest & used & _ & _ & Hl & Hcase).
  destruct Hcase as [(Hb & _)|(_ & _ & granted & -> & _)]; [congruence|].
  rewrite Hl in Hall. apply Forall_app in Hall as [Hall _].
  apply Forall_app in Hall as [_ Hall]. inversion Hall. discriminate.
Qed.


Lemma tracks_ctor : tracks ostringstream_ctor "".
Proof. split; [apply begins_refl|reflexivity]. Qed.

End StreamFacts.

(** ** The threads example and the world *)
Section ThreadWorldFacts.
Import Threads.
Import ThreadRuns.
Variable show_id : tid -> string.

Lemma quiet_refl w : quiet w w.
Proof. split; [reflexivity|]. exists "". now rewrite append_empty_r. Qed.

Lemma quiet_trans w1 w2 w3 : quiet w1 w2 -> quiet w2 w3 -> quiet w1 w3.
Proof.
  intros [E1 [t1 C1]] [E2 [t2 C2]]. split; [congruence|].
  exists (t1 +:+ t2). rewrite C2, C1. apply append_assoc.
Qed.

Lemma quiet_supply w l : quiet w (with_supply w l).
Proof. split; [reflexivity|]. exists "". simpl. now rewrite append_empty_r. Qed.

Lemma request_false s l :
  request s = (false, l) -> exists used, Forall (eq false) used /\ s = (used ++ l)%list.
Proof.
  destruct s as [|r rest]; simpl.
  - intros [= <-]. exists []. split; [constructor|reflexivity].
  - intros [= -> <-]. exists [false]. split; [repeat constructor|reflexivity].
Qed.

Lemma request_true s l : request s = (true, l) -> s = true :: l.
Proof. destruct s as [|r rest]; simpl; [discriminate|]. now intros [= -> <-]. Qed.

Lemma granted_request w w' l :
  request (supply w) = (false, l) -> supply w' = l -> granted w w'.
Proof. intros (used & Hu & E)%request_false <-. exists used. auto. Qed.

Lemma refused_request w w' l :
  request (supply w) = (true, l) -> supply w' = l -> refused_last w w'.
Proof.
  intros E%request_true <-. exists []. split; [constructor|exact E].
Qed.

Lemma granted_request2 w w' l1 l2 :
  request (supply w) = (false, l1) -> request l1 = (false, l2) ->
  supply w' = l2 -> granted w w'.
Proof.
  intros (u1 & Hu1 & E1)%request_false (u2 & Hu2 & E2)%request_false <-.
  exists (u1 ++ u2)%list. split; [now apply Forall_app|].
  rewrite E1, E2, app_assoc. reflexivity.
Qed.

Lemma refused_request2 w w' l1 l2 :
  request (supply w) = (false, l1) -> request l1 = (true, l2) ->
  supply w' = l2 -> refused_last w w'.
Proof.
  intros (u1 & Hu1 & E1)%request_false E2%request_true <-.
  exists u1. split; [exact Hu1|]. rewrite E1, E2. reflexivity.
Qed.

Lemma granted_answered w w' : granted w w' <-> answered w w' 0.
Proof.
  split; intros (used & H1 & H2); exists used.
  - split; [exact H2|now apply refusals_granted].
  - split; [now apply granted_refusals|exact H1].
Qed.

Lemma answered_trans w1 w2 w3 n m :
  answered w1 w2 n -> answered w2 w3 m -> answered w1 w3 (n + m).
Proof.
  intros (u1 & E1 & Hn) (u2 & E2 & Hm). exists (u1 ++ u2)%list. split.
  - rewrite E1, E2, app_assoc. reflexivity.
  - rewrite refusals_app. congruence.
Qed.

(** What a step does to the world: the requests it made were granted,
    but for the one an insertion went on after; a step that ends the
    process made a request that was refused; the environment is kept and
    the standard output only grows. *)
Lemma step_answers t st :
  match step show_id t st with
  | Blocked => True
  | Stepped ev st' =>
      answered (world st) (world st') (absorbs ev) /\ quiet (world st) (world st')
  | Faulted _ st' => refused_last (world st) (world st') /\ quiet (world st) (world st')
  end.
Proof.
  unfold step.
  destruct (pool st !! t) as [th|]; [|exact I].
  destruct (code th) as [|i rest]; [exact I|].
  destruct i; simpl.
  3: { destruct (oss_insert_answers (render show_id t p) (oss th) (supply (world st)))
         as (used & Hl & Hr).
       destruct (oss_insert (render show_id t p) (oss th) (supply (world st)))
         as [oss' supply']. simpl in *.
       split; [|apply quiet_supply]. exists used. auto. }
  all: repeat case_match; simplify_eq/=; try exact I.
  all: split;
    try solve [ apply granted_answered, granted_refl | apply quiet_refl
              | apply quiet_supply
              | apply granted_answered; eapply granted_request; [eassumption|reflexivity]
              | eapply refused_request; [eassumption|reflexivity]
              | apply granted_answered; eapply granted_request2;
                  [eassumption|eassumption|reflexivity]
              | eapply refused_request2; [eassumption|eassumption|reflexivity] ].
  all: try solve [split; [reflexivity|]; now exists (str (oss th))].
  exists []. split; reflexivity.
Qed.

Lemma step_supply t st :
  Forall (eq false) (supply (world st)) ->
  match step show_id t st with
  | Blocked => True
  | Stepped _ st' => Forall (eq false) (supply (world st'))
  | Faulted _ _ => False
  end.
Proof.
  intros Hall. pose proof (step_answers t st) as Hw.
  destruct (step show_id t st) as [|ev st'|e st']; [exact I| |].
  - destruct Hw as [(used & E & _) _]. rewrite E in Hall.
    now apply Forall_app in Hall as [_ ?].
  - destruct Hw as [(used & _ & E) _]. rewrite E in Hall.
    apply Forall_app in Hall as [_ Hall]. inversion Hall. discriminate.
Qed.

Lemma run_supply sched : forall st,
  Forall (eq false) (supply (world st)) ->
  exists st', (run show_id sched st).2 = Running st' /\
              Forall (eq false) (supply (world st')).
Proof.
  induction sched as [|t sched IH]; intros st Hall; simpl; [eauto|].
  pose proof (step_supply t st Hall) as Hs.
  destruct (step show_id t st) as [|ev st'|e st']; [now apply IH| |done].
  destruct (IH st' Hs) as (st2 & E & Hall2).
  destruct (run show_id sched st') as [trace r]. simpl in *. eauto.
Qed.

(** A run of the threads: every refused request either was met inside an
    insertion, which went on, or ended the process on the spot. *)
Lemma run_answers sched : forall st,
  match (run show_id sched st).2 with
  | Running st' => answered (world st) (world st') (absorbed (run show_id sched st).1)
  | Terminated _ st' =>
      exists w1, answered (world st) w1 (absorbed (run show_id sched st).1) /\
                 supply w1 = true :: supply (world st')
  end /\ quiet (world st) (world (state_of (run show_id sched st).2)).
Proof.
  induction sched as [|t sched IH]; intros st; simpl.
  - split; [apply granted_answered, granted_refl|apply quiet_refl].
  - pose proof (step_answers t st) as Hw.
    destruct (step show_id t st) as [|ev st'|e st'] eqn:Hstep; [apply IH| |].
    + specialize (IH st'). destruct Hw as [Ha Hq].
      destruct (run show_id sched st') as [trace r]. simpl in *.
      destruct IH as [IHa IHq]. split; [|eapply quiet_trans; eauto].
      destruct r as [st2|x st2].
      * change (absorbed ((t, ev) :: trace)) with (absorbs ev + absorbed trace)%nat.
        eapply answered_trans; eauto.
      * destruct IHa as (w1 & Ha1 & Hs1). exists w1. split; [|exact Hs1].
        change (absorbed ((t, ev) :: trace)) with (absorbs ev + absorbed trace)%nat.
        eapply answered_trans; eauto.
    + simpl. destruct Hw as [(used & Hu & E) Hq]. split; [|exact Hq].
      exists {| env := env (world st); cout := cout (world st);
                supply := true :: supply (world st') |}.
      split; [|reflexivity]. exists used. simpl. split; [exact E|].
      now apply refusals_granted.
Qed.

Lemma step_with_env e t st :
  step show_id t (state_with_env e st) =
  match step show_id t st with
  | Blocked => Blocked
  | Stepped ev st' => Stepped ev (state_with_env e st')
  | Faulted x st' => Faulted x (state_with_env e st')
  end.
Proof.
  unfold step. simpl.
  destruct (pool st !! t) as [th|]; [|reflexivity].
  destruct (code th) as [|i rest]; [reflexivity|].
  destruct i; simpl; repeat case_match; simplify_eq/=; reflexivity.
Qed.

Lemma run_with_env e sched : forall st,
  run show_id sched (state_with_env e st) =
  ((run show_id sched st).1, result_with_env e (run show_id sched st).2).
Proof.
  induction sched as [|t sched IH]; intros st; simpl; [reflexivity|].
  rewrite step_with_env.
  destruct (step show_id t st) as [|ev st'|x st']; [apply IH| |reflexivity].
  rewrite IH. destruct (run show_id sched st') as [trace r]. reflexivity.
Qed.

End ThreadWorldFacts.

(** ** The threads example *)
Section ThreadFacts.
Import Threads.
Import ThreadRuns.
Variable show_id : tid -> string.

Lemma lock_ok_joins (js : list tid) (rest : list instr) :
  lock_ok false (map Join js ++ rest) = lock_ok false rest.
Proof. induction js as [|j js IH]; simpl; [reflexivity|exact IH]. Qed.

Lemma lock_ok_body f : lock_ok false (body f) = true.
Proof. destruct f; reflexivity. Qed.

Lemma lock_inv_update st t th' m' w' :
  lock_inv st ->
  (t < length (pool st))%nat ->
  lock_ok (bool_decide (m' = Some t)) (code th') = true ->
  (forall t2, t2 <> t -> bool_decide (m' = Some t2) = holds st t2) ->
  (forall t2, m' = Some t2 -> (t2 < length (pool st))%nat) ->
  lock_inv {| coutMutex := m'; world := w'; pool := <[t := th']> (pool st) |}.
Proof.
  intros [Hok Hown] Hlt Hth Hothers Hown'. split; simpl.
  - intros t2 th2 Hl. unfold holds; simpl.
    apply list_lookup_insert_Some in Hl as [(<- & <- & _)|(Hne & Hl)].
    + exact Hth.
    + rewrite Hothers by congruence. now apply Hok.
  - intros t2 Hm. rewrite length_insert. now apply Hown'.
Qed.

Lemma lock_inv_spawn m w threads started :
  lock_inv {| coutMutex := m; world := w; pool := threads |} ->
  lock_ok false (code started) = true ->
  lock_inv {| coutMutex := m; world := w; pool := threads ++ [started] |}.
Proof.
  intros [Hok Hown] Hs. simpl in *. split; simpl.
  - intros t2 th2 Hl. unfold holds in *; simpl in *.
    apply lookup_app_Some in Hl as [Hl|[Hge Hl]]; [now apply Hok|].
    apply list_lookup_singleton_Some in Hl as [_ <-].
    rewrite bool_decide_eq_false_2; [exact Hs|].
    intros Hm. apply Hown in Hm. lia.
  - intros t2 Hm. rewrite length_app. apply Hown in Hm. lia.
Qed.

Lemma step_keeps_lock_inv t st ev st' :
  lock_inv st -> step show_id t st = Stepped ev st' ->
  lock_inv st' /\ allowed (coutMutex st) t ev = Some (coutMutex st').
Proof.
  intros Hinv Hstep. pose proof Hinv as [Hok Hown]. unfold step in Hstep.
  destruct (pool st !! t) as [th|] eqn:Et; [|discriminate].
  destruct (code th) as [|i rest] eqn:Ec; [discriminate|].
  pose proof (Hok t th Et) as Ht. rewrite Ec in Ht. unfold holds in *.
  pose proof (lookup_lt_Some _ _ _ Et) as Hlt.
  assert (Hfree : forall b, negb (bool_decide (coutMutex st = Some t)) && b = true ->
     coutMutex st <> Some t /\ b = true).
  { intros b [Hh Hb]%andb_true_iff. split; [|exact Hb].
    now apply negb_true_iff, bool_decide_eq_false in Hh. }
  assert (Hheld : forall b, bool_decide (coutMutex st = Some t) && b = true ->
     coutMutex st = Some t /\ b = true).
  { intros b [Hh Hb]%andb_true_iff. split; [|exact Hb].
    now apply bool_decide_eq_true in Hh. }
  destruct i; simpl in Ht;
    try (apply Hfree in Ht as [Hne Hrest]);
    try (apply Hheld in Ht as [Hm Hrest]);
    repeat case_match; simplify_eq/=; clear Hfree Hheld.
  all: split; [|solve [repeat case_decide; congruence]].
  all: try (apply lock_inv_spawn; [|apply lock_ok_body]).
  all: apply lock_inv_update; simpl; try done.
  all: repeat first
         [ rewrite bool_decide_eq_false_2; [|congruence]
         | rewrite bool_decide_eq_true_2; [|congruence] ].
  all: try rewrite lock_ok_joins; try done.
  all: try (intros t2 [= <-]; done).
  all: intros t2 Hne2; unfold holds; symmetry.
  all: repeat (rewrite bool_decide_eq_false_2; [|congruence]); done.
Qed.


Lemma step_fault_state t st e st' :
  step show_id t st = Faulted e st' -> coutMutex st' = coutMutex st /\ pool st' = pool st.
Proof.
  unfold step. intros Hstep. repeat case_match; simplify_eq/=; done.
Qed.

Lemma run_lock_inv sched : forall st,
  lock_inv st -> lock_inv (state_of (run show_id sched st).2).
Proof.
  induction sched as [|t sched IH]; intros st Hinv; simpl; [exact Hinv|].
  destruct (step show_id t st) as [|ev st'|e st'] eqn:Hstep; [now apply IH| |].
  - destruct (step_keeps_lock_inv _ _ _ _ Hinv Hstep) as [Hinv' _].
    specialize (IH st' Hinv').
    destruct (run show_id sched st') as [trace r]. exact IH.
  - simpl. apply step_fault_state in Hstep as [Hm Hp].
    destruct Hinv as [Hok Hown]. unfold lock_inv, holds. rewrite Hm, Hp. auto.
Qed.

Lemma events_by_cons t t0 ev trace :
  events_by t ((t0, ev) :: trace) =
  if decide (t0 = t) then ev :: events_by t trace else events_by t trace.
Proof.
  unfold events_by. rewrite filter_cons. simpl.
  destruct (decide (t0 = t)) as [->|Hne].
  - rewrite bool_decide_eq_true_2 by done. reflexivity.
  - rewrite bool_decide_eq_false_2 by done. reflexivity.
Qed.

(** One step, seen from a thread that only prints: its events follow its
    statements.  [buffer] is the text its stream holds when every
    request is granted. *)
Lemma step_script t st ev st' :
  step show_id t st = Stepped ev st' ->
  forall t2 th2 buffer,
    pool st !! t2 = Some th2 -> printing th2 -> tracks (oss th2) buffer ->
    exists th2' buffer',
      pool st' !! t2 = Some th2' /\ printing th2' /\ tracks (oss th2') buffer' /\
      (Forall (eq false) (supply (world st)) -> badbit (oss th2) = false ->
       badbit (oss th2') = false) /\
      if decide (t = t2)
      then exists intended,
             script show_id t2 buffer (code th2) =
             intended :: script show_id t2 buffer' (code th2') /\
             truncates ev intended /\
             (badbit (oss th2') = false -> ev = intended)
      else th2' = th2 /\ buffer' = buffer.
Proof.
  intros Hstep t2 th2 buffer Hl2 Hp2 Htr. unfold step in Hstep.
  destruct (pool st !! t) as [th|] eqn:Et; [|discriminate].
  destruct (code th) as [|i rest] eqn:Ec; [discriminate|].
  pose proof (lookup_lt_Some _ _ _ Et) as Hlt.
  destruct (decide (t = t2)) as [->|Hne].
  - rewrite Et in Hl2. injection Hl2 as <-. unfold printing in *.
    rewrite Ec in *. simpl in Hp2. apply andb_true_iff in Hp2 as [Hi Hrest].
    destruct i; try discriminate.
    + (* the temporary string *)
      exists {| code := rest; oss := oss th; threadsVector := threadsVector th |}, buffer.
      repeat case_match; simplify_eq/=.
      all: split; [apply list_lookup_insert_eq; done|].
      all: split; [exact Hrest|]; split; [exact Htr|]; split; [auto|].
      all: exists EvTemp; auto.
    + (* the new stream *)
      injection Hstep as <- <-. eexists _, "". simpl.
      split; [apply list_lookup_insert_eq; done|]. simpl.
      split; [exact Hrest|]. split; [apply tracks_ctor|]. split; [auto|].
      exists EvNew. auto.
    + (* an insertion *)
      pose proof (oss_insert_tracks (render show_id t2 p) (oss th)
                    (supply (world st)) buffer Htr) as Htr'.
      pose proof (oss_insert_granted (render show_id t2 p) (oss th)
                    (supply (world st))) as Hgr.
      destruct (oss_insert (render show_id t2 p) (oss th) (supply (world st)))
        as [oss' supply']. simpl in *.
      injection Hstep as <- <-. eexists _, (buffer +:+ render show_id t2 p). simpl.
      split; [apply list_lookup_insert_eq; done|]. simpl.
      split; [exact Hrest|]. split; [exact Htr'|].
      split; [intros Hall Hb; rewrite Hgr by exact Hall; exact Hb|].
      exists (EvInsert p false). split; [reflexivity|]. split; [reflexivity|].
      intros ->. now rewrite andb_false_r.
    + (* the lock *)
      exists {| code := rest; oss := oss th; threadsVector := threadsVector th |}, buffer.
      repeat case_match; simplify_eq/=.
      split; [apply list_lookup_insert_eq; done|].
      split; [exact Hrest|]; split; [exact Htr|]; split; [auto|].
      exists EvLock; auto.
    + (* the write *)
      exists {| code := rest; oss := oss th; threadsVector := threadsVector th |}, buffer.
      repeat case_match; simplify_eq/=.
      all: split; [apply list_lookup_insert_eq; done|].
      all: split; [exact Hrest|]; split; [exact Htr|]; split; [auto|].
      all: exists (EvWrite buffer); split; [reflexivity|].
      all: split; [exact (proj1 Htr)|].
      all: intros Hb; now rewrite (proj2 Htr Hb).
    + (* the unlock *)
      exists {| code := rest; oss := oss th; threadsVector := threadsVector th |}, buffer.
      repeat case_match; simplify_eq/=.
      split; [apply list_lookup_insert_eq; done|].
      split; [exact Hrest|]; split; [exact Htr|]; split; [auto|].
      exists EvUnlock; auto.
  - exists th2, buffer. split; [|split; [exact Hp2|split; [exact Htr|auto]]].
    destruct i; repeat case_match; simplify_eq/=.
    all: try (rewrite lookup_app_l by (rewrite length_insert; eapply lookup_lt_Some; eauto)).
    all: rewrite list_lookup_insert_ne by done; exact Hl2.
Qed.

Lemma step_fault_pool t st e st' :
  step show_id t st = Faulted e st' -> pool st' = pool st.
Proof. intros H. now apply step_fault_state in H. Qed.

(** A run, seen from a thread that only prints: the events of the thread
    are those of the statements it has run, but for the texts that a
    refused request cut short; with every request granted they are those
    events exactly. *)
Lemma run_script sched : forall st t th buffer,
  pool st !! t = Some th -> printing th -> tracks (oss th) buffer ->
  exists th' buffer' intended,
    pool (state_of (run show_id sched st).2) !! t = Some th' /\
    tracks (oss th') buffer' /\
    script show_id t buffer (code th) =
      (intended ++ script show_id t buffer' (code th'))%list /\
    Forall2 truncates (events_by t (run show_id sched st).1) intended /\
    (Forall (eq false) (supply (world st)) -> badbit (oss th) = false ->
     events_by t (run show_id sched st).1 = intended).
Proof.
  induction sched as [|t0 sched IH]; intros st t th buffer Hl Hp Htr; simpl.
  - exists th, buffer, []. split; [exact Hl|]. split; [exact Htr|].
    split; [reflexivity|]. split; [constructor|reflexivity].
  - pose proof (step_supply show_id t0 st) as Hsup.
    destruct (step show_id t0 st) as [|ev st'|e st'] eqn:Hstep.
    + now apply IH.
    + destruct (step_script _ _ _ _ Hstep t th buffer Hl Hp Htr)
        as (th1 & buffer1 & Hl1 & Hp1 & Htr1 & Hgood & Hrel).
      destruct (IH st' t th1 buffer1 Hl1 Hp1 Htr1)
        as (th' & buffer' & intended & Hl' & Htr' & Hscript & Hev & Hexact).
      destruct (run show_id sched st') as [trace r]. simpl in *.
      rewrite events_by_cons. destruct (decide (t0 = t)) as [->|Hne].
      * destruct Hrel as (i1 & Hi1 & Htrunc & Hsame).
        exists th', buffer', (i1 :: intended).
        split; [exact Hl'|]. split; [exact Htr'|].
        split; [rewrite Hi1, Hscript; reflexivity|].
        split; [now constructor|].
        intros Hall Hb. rewrite (Hsame (Hgood Hall Hb)). f_equal.
        apply Hexact; [now apply Hsup|now apply Hgood].
      * destruct Hrel as [-> ->].
        exists th', buffer', intended. split; [exact Hl'|]. split; [exact Htr'|].
        split; [exact Hscript|]. split; [exact Hev|].
        intros Hall Hb. apply Hexact; [now apply Hsup|exact Hb].
    + simpl. exists th, buffer, [].
      split; [now rewrite (step_fault_pool _ _ _ _ Hstep)|]. split; [exact Htr|].
      split; [reflexivity|]. split; [constructor|reflexivity].
Qed.

Lemma formatted_buffer t message :
  ((((("" +:+ ("Message: " +:+ dquote)) +:+ message) +:+
     (dquote +:+ " from thread: ")) +:+ show_id t) +:+ endl) =
  formatted show_id t message.
Proof. unfold formatted. rewrite !append_assoc. reflexivity. Qed.

Lemma script_printMessage t buffer message rest :
  script show_id t buffer (printMessage message ++ rest) =
  (call_events show_id t message ++
   script show_id t (formatted show_id t message) rest)%list.
Proof. simpl. rewrite formatted_buffer. reflexivity. Qed.

Lemma script_calls t messages : forall buffer,
  script show_id t buffer (flat_map printMessage messages) =
  flat_map (call_events show_id t) messages.
Proof.
  induction messages as [|m ms IH]; intros buffer; [reflexivity|].
  change (flat_map printMessage (m :: ms)) with (printMessage m ++ flat_map printMessage ms)%list.
  rewrite script_printMessage, IH. reflexivity.
Qed.


Lemma lock_ok_calls messages : lock_ok false (flat_map printMessage messages) = true.
Proof. induction messages as [|m ms IH]; [reflexivity|exact IH]. Qed.

Lemma prints_calls messages : forallb prints (flat_map printMessage messages) = true.
Proof. induction messages as [|m ms IH]; [reflexivity|exact IH]. Qed.

Lemma callers_lookup messages w t th :
  pool (callers messages w) !! t = Some th ->
  exists ms, messages !! t = Some ms /\ code th = flat_map printMessage ms /\
             oss th = ostringstream_ctor.
Proof.
  unfold callers. simpl. rewrite list_lookup_fmap.
  destruct (messages !! t) as [ms|]; simpl; [|discriminate].
  intros [= <-]. eauto.
Qed.

Lemma lock_inv_callers messages w : lock_inv (callers messages w).
Proof.
  split.
  - intros t th Hl. apply callers_lookup in Hl as (ms & _ & -> & _).
    unfold holds. simpl. apply lock_ok_calls.
  - simpl. discriminate.
Qed.

Lemma lock_inv_start w : lock_inv (start w).
Proof.
  split.
  - intros [|t] th; simpl; [|discriminate]. intros [= <-]. reflexivity.
  - simpl. discriminate.
Qed.





Lemma printing_tail i rest o v o' v' :
  printing {| code := i :: rest; oss := o; threadsVector := v |} ->
  printing {| code := rest; oss := o'; threadsVector := v' |}.
Proof. unfold printing. simpl. now intros [_ ?]%andb_true_iff. Qed.

Lemma finished_nil th : finished th = true -> code th = [].
Proof. unfold finished. now destruct (code th). Qed.

Lemma step_keeps_main_inv t st ev st' :
  main_inv st -> step show_id t st = Stepped ev st' -> main_inv st'.
Proof.
  destruct st as [mx w p]. unfold main_inv, step. simpl.
  destruct p as [|m [|w1 [|w2 [|w3 p]]]]; try done.
  - intros [Hc Hv]. destruct t as [|t]; simpl; [|discriminate].
    rewrite Hc. simpl. intros Hstep. repeat case_match; simplify_eq/=.
    rewrite Hv. split; [reflexivity|]. split; reflexivity.
  - intros (Hc & Hv & Hp1). destruct t as [|[|t]]; simpl; [| |discriminate].
    + rewrite Hc. simpl. intros Hstep. repeat case_match; simplify_eq/=.
      rewrite Hv. split; [exact Hp1|]. split; [reflexivity|]. left. done.
    + destruct w1 as [c1 o1 v1]. simpl. destruct c1 as [|i rest]; [discriminate|].
      intros Hstep. destruct i; try discriminate; repeat case_match; simplify_eq/=.
      all: split; [done|]; split; [done|]; eapply printing_tail; exact Hp1.
  - intros (Hp1 & Hp2 & Hm). destruct t as [|[|[|t]]]; simpl; [| | |discriminate].
    + destruct Hm as [[Hc Hv]|[Hc|[[Hc Hd1]|(Hc & _)]]]; rewrite Hc; simpl;
        intros Hstep; repeat case_match; simplify_eq/=.
      * rewrite Hv. simpl. auto.
      * split; [done|]. split; [done|]. right. right. left. split; [done|].
        now apply finished_nil.
      * split; [done|]. split; [done|]. right. right. right.
        split; [done|]. split; [done|]. now apply finished_nil.
    + destruct w1 as [c1 o1 v1]. simpl. destruct c1 as [|i rest]; [discriminate|].
      intros Hstep.
      assert (Hm' : (code m = [JoinEach] /\ threadsVector m = [1%nat; 2%nat]) \/
                    code m = [Join 1; Join 2]).
      { destruct Hm as [?|[?|[[_ ?]|(_ & ? & _)]]]; auto; discriminate. }
      destruct i; try discriminate; repeat case_match; simplify_eq/=.
      all: split; [eapply printing_tail; exact Hp1|]; split; [done|].
      all: destruct Hm' as [?|?]; auto.
    + destruct w2 as [c2 o2 v2]. simpl. destruct c2 as [|i rest]; [discriminate|].
      intros Hstep.
      assert (Hm' : (code m = [JoinEach] /\ threadsVector m = [1%nat; 2%nat]) \/
                    code m = [Join 1; Join 2] \/ (code m = [Join 2] /\ code w1 = [])).
      { destruct Hm as [?|[?|[?|(_ & _ & ?)]]]; auto; discriminate. }
      destruct i; try discriminate; repeat case_match; simplify_eq/=.
      all: split; [done|]; split; [eapply printing_tail; exact Hp2|].
      all: destruct Hm' as [?|[?|?]]; auto.
Qed.

Lemma run_main_inv sched : forall st,
  main_inv st -> main_inv (state_of (run show_id sched st).2).
Proof.
  induction sched as [|t sched IH]; intros st Hinv; simpl; [exact Hinv|].
  destruct (step show_id t st) as [|ev st'|e st'] eqn:Hstep; [now apply IH| |].
  - pose proof (step_keeps_main_inv _ _ _ _ Hinv Hstep) as Hinv'.
    specialize (IH st' Hinv').
    destruct (run show_id sched st') as [trace r]. exact IH.
  - simpl. unfold main_inv. now rewrite (step_fault_pool _ _ _ _ Hstep).
Qed.


Lemma main_inv_start w : main_inv (start w).
Proof. split; reflexivity. Qed.

Lemma step_others t st ev st' t2 th2 :
  step show_id t st = Stepped ev st' -> t2 <> t ->
  pool st !! t2 = Some th2 -> pool st' !! t2 = Some th2.
Proof.
  unfold step. intros Hstep Hne Hl2.
  repeat case_match; simplify_eq/=.
  all: try (rewrite lookup_app_l by (rewrite length_insert; eapply lookup_lt_Some; eauto)).
  all: now rewrite list_lookup_insert_ne.
Qed.

Lemma step_finished_stays t st ev st' t2 th2 :
  step show_id t st = Stepped ev st' ->
  pool st !! t2 = Some th2 -> code th2 = [] -> pool st' !! t2 = Some th2.
Proof.
  intros Hstep Hl2 Hc. eapply step_others; eauto.
  intros ->. unfold step in Hstep. rewrite Hl2, Hc in Hstep. discriminate.
Qed.

Lemma run_finished_stays sched : forall st t2 th2,
  pool st !! t2 = Some th2 -> code th2 = [] ->
  pool (state_of (run show_id sched st).2) !! t2 = Some th2.
Proof.
  induction sched as [|t sched IH]; intros st t2 th2 Hl Hc; simpl; [exact Hl|].
  destruct (step show_id t st) as [|ev st'|e st'] eqn:Hstep; [now apply IH| |].
  - pose proof (step_finished_stays _ _ _ _ _ _ Hstep Hl Hc) as Hl'.
    specialize (IH st' t2 th2 Hl' Hc).
    destruct (run show_id sched st') as [trace r]. exact IH.
  - simpl. now rewrite (step_fault_pool _ _ _ _ Hstep).
Qed.

Lemma step_join_finished t st t' st' :
  step show_id t st = Stepped (EvJoin t') st' ->
  exists th, pool st' !! t' = Some th /\ code th = [].
Proof.
  intros Hstep. pose proof Hstep as Hstep'. unfold step in Hstep.
  repeat case_match; simplify_eq/=.
  match goal with Hf : finished ?joined = true |- _ =>
    exists joined; apply finished_nil in Hf
  end.
  split; [|assumption].
  exact (step_finished_stays _ _ _ _ _ _ Hstep' ltac:(eassumption) ltac:(assumption)).
Qed.

Lemma run_join_finished sched : forall st t t',
  (t, EvJoin t') ∈ (run show_id sched st).1 ->
  exists th, pool (state_of (run show_id sched st).2) !! t' = Some th /\ code th = [].
Proof.
  induction sched as [|t0 sched IH]; intros st t t'; simpl.
  - intros Hin. now apply elem_of_nil in Hin.
  - destruct (step show_id t0 st) as [|ev st'|e st'] eqn:Hstep.
    + apply IH.
    + specialize (IH st' t t').
      pose proof (run_finished_stays sched st') as Hstay.
      destruct (run show_id sched st') as [trace r]. simpl in *.
      intros [[= <- <-]|Hin]%elem_of_cons; [|now apply IH].
      destruct (step_join_finished _ _ _ _ Hstep) as (th & Hl & Hc).
      exists th. split; [|exact Hc]. now apply Hstay.
    + simpl. intros Hin. now apply elem_of_nil in Hin.
Qed.

Lemma main_inv_printing st t th :
  main_inv st -> pool st !! S t = Some th -> printing th.
Proof.
  unfold main_inv. destruct (pool st) as [|m [|w1 [|w2 [|w3 p]]]]; try done.
  - intros (_ & _ & Hp). destruct t; simpl; [|done]. now intros [= <-].
  - intros (Hp1 & Hp2 & _). destruct t as [|[|t]]; simpl; [| |done].
    + now intros [= <-].
    + now intros [= <-].
Qed.

Lemma step_starts_worker t0 st ev st' t f :
  main_inv st -> step show_id t0 st = Stepped ev st' -> worker t f ->
  pool st !! t = None ->
  pool st' !! t = None \/
  pool st' !! t =
    Some {| code := body f; oss := ostringstream_ctor; threadsVector := [] |}.
Proof.
  destruct st as [mx w p]. unfold main_inv, step. simpl.
  destruct p as [|m [|w1 [|w2 [|w3 p]]]]; try done.
  - intros [Hc Hv]. destruct t0 as [|t0]; simpl; [|discriminate].
    rewrite Hc. simpl. intros Hstep [[-> ->]|[-> ->]] _;
      repeat case_match; simplify_eq/=; auto.
  - intros (Hc & Hv & Hp1). destruct t0 as [|[|t0]]; simpl; [| |discriminate].
    + rewrite Hc. simpl. intros Hstep [[-> ->]|[-> ->]]; [discriminate|]. intros _.
      repeat case_match; simplify_eq/=; auto.
    + intros Hstep [[-> ->]|[-> ->]]; [discriminate|]. intros _.
      unfold printing in Hp1.
      destruct (code w1) as [|i rest]; [discriminate|].
      destruct i; try discriminate; repeat case_match; simplify_eq/=; auto.
  - intros _ _ [[-> ->]|[-> ->]]; discriminate.
Qed.

Lemma script_body_any t f buffer :
  script show_id t buffer (body f) = script show_id t "" (body f).
Proof. destruct f; reflexivity. Qed.

(** A run of the example, seen from one of the workers, which may not
    have been started yet. *)
Lemma run_worker_script sched : forall st t f buffer,
  main_inv st -> worker t f ->
  (forall th, pool st !! t = Some th -> tracks (oss th) buffer) ->
  exists buffer' intended,
    match pool st !! t with
    | Some th => script show_id t buffer (code th)
    | None => script show_id t "" (body f)
    end =
    (intended ++
     match pool (state_of (run show_id sched st).2) !! t with
     | Some th' => script show_id t buffer' (code th')
     | None => script show_id t "" (body f)
     end)%list /\
    Forall2 truncates (events_by t (run show_id sched st).1) intended /\
    (Forall (eq false) (supply (world st)) ->
     (forall th, pool st !! t = Some th -> badbit (oss th) = false) ->
     events_by t (run show_id sched st).1 = intended).
Proof.
  induction sched as [|t0 sched IH]; intros st t f buffer Hinv Hw Htr; simpl.
  - exists buffer, []. split; [reflexivity|]. split; [constructor|reflexivity].
  - pose proof (step_supply show_id t0 st) as Hsup.
    destruct (step show_id t0 st) as [|ev st'|e st'] eqn:Hstep; [now apply IH| |].
    + pose proof (step_keeps_main_inv _ _ _ _ Hinv Hstep) as Hinv'.
      destruct (pool st !! t) as [th|] eqn:Hl.
      * assert (Hp : printing th).
        { destruct Hw as [[-> _]|[-> _]].
          - exact (main_inv_printing st 0 th Hinv Hl).
          - exact (main_inv_printing st 1 th Hinv Hl). }
        destruct (step_script _ _ _ _ Hstep t th buffer Hl Hp (Htr th eq_refl))
          as (th1 & buffer1 & Hl1 & Hp1 & Htr1 & Hgood & Hrel).
        destruct (IH st' t f buffer1 Hinv' Hw) as (buffer' & intended & Hscript & Hev & Hexact).
        { intros th0 Hl0. rewrite Hl1 in Hl0. now injection Hl0 as <-. }
        rewrite Hl1 in Hscript.
        destruct (run show_id sched st') as [trace r]. simpl in *.
        rewrite events_by_cons. destruct (decide (t0 = t)) as [->|Hne].
        -- destruct Hrel as (i1 & Hi1 & Htrunc & Hsame).
           exists buffer', (i1 :: intended).
           split; [rewrite Hi1, Hscript; reflexivity|].
           split; [now constructor|].
           intros Hall Hb. specialize (Hb th eq_refl).
           rewrite (Hsame (Hgood Hall Hb)). f_equal.
           apply Hexact; [now apply Hsup|].
           intros th0 Hl0. rewrite Hl1 in Hl0. injection Hl0 as <-. now apply Hgood.
        -- destruct Hrel as [-> ->].
           exists buffer', intended. split; [exact Hscript|]. split; [exact Hev|].
           intros Hall Hb. apply Hexact; [now apply Hsup|].
           intros th0 Hl0. rewrite Hl1 in Hl0. injection Hl0 as <-. now apply Hb.
      * assert (Hne : t0 <> t).
        { intros ->. unfold step in Hstep. rewrite Hl in Hstep. discriminate. }
        destruct (IH st' t f "" Hinv' Hw) as (buffer' & intended & Hscript & Hev & Hexact).
        { intros th0 Hl0.
          destruct (step_starts_worker _ _ _ _ _ _ Hinv Hstep Hw Hl) as [Hn|Hs];
            rewrite ?Hn, ?Hs in Hl0; [discriminate|].
          injection Hl0 as <-. apply tracks_ctor. }
        assert (Hsame : match pool st' !! t with
                        | Some th => script show_id t "" (code th)
                        | None => script show_id t "" (body f)
                        end = script show_id t "" (body f)).
        { destruct (step_starts_worker _ _ _ _ _ _ Hinv Hstep Hw Hl) as [Hn|Hs];
            rewrite ?Hn, ?Hs; reflexivity. }
        rewrite Hsame in Hscript.
        destruct (run show_id sched st') as [trace r]. simpl in *.
        rewrite events_by_cons, decide_False by exact Hne.
        exists buffer', intended. split; [exact Hscript|]. split; [exact Hev|].
        intros Hall _. apply Hexact; [now apply Hsup|].
        intros th0 Hl0.
        destruct (step_starts_worker _ _ _ _ _ _ Hinv Hstep Hw Hl) as [Hn|Hs];
          rewrite ?Hn, ?Hs in Hl0; [discriminate|].
        now injection Hl0 as <-.
    + simpl. rewrite (step_fault_pool _ _ _ _ Hstep).
      exists buffer, []. split; [reflexivity|]. split; [constructor|reflexivity].
Qed.

Lemma script_body t f :
  script show_id t "" (body f) =
  EvTemp :: call_events show_id t
              match f with
              | lambda => "Hello from the lambda function!"
              | someThreadFunction => "Hello from someThreadFunction()!"
              end.
Proof.
  destruct f; unfold body, call_printMessage; simpl; rewrite formatted_buffer;
    reflexivity.
Qed.


(** Either worker may print first (the ids are shown as numbers). *)
Example lambda_prints_first :
  let sched := ([0; 0] ++ repeat 1 10 ++ repeat 2 10 ++ [0; 0; 0])%nat%list in
  let final := state_of (run pretty sched (start empty_world)).2 in
  map finished (pool final) = [true; true; true] /\
  cout (world final) =
    formatted pretty 1 "Hello from the lambda function!" +:+
    formatted pretty 2 "Hello from someThreadFunction()!".
Proof. split; vm_compute; reflexivity. Qed.

Example someThreadFunction_prints_first :
  let sched := ([0; 0] ++ repeat 1 7 ++ repeat 2 10 ++ repeat 1 3 ++ [0; 0; 0])%nat%list in
  let final := state_of (run pretty sched (start empty_world)).2 in
  map finished (pool final) = [true; true; true] /\
  cout (world final) =
    formatted pretty 2 "Hello from someThreadFunction()!" +:+
    formatted pretty 1 "Hello from the lambda function!".
Proof. split; vm_compute; reflexivity. Qed.

(** While a worker still runs, the launching thread stays in its loop. *)
Example main_blocked_on_join :
  let sched := ([0; 0] ++ repeat 1 4 ++ repeat 0 5)%nat%list in
  let final := state_of (run show_id sched (start empty_world)).2 in
  (code <$> pool final !! 0%nat) = Some [Join 1; Join 2].
Proof. reflexivity. Qed.

(** C5: in the threads example the launching thread blocks on [join] for
    each worker it started: a [join] only returns once the joined thread
    has run all its statements, and when the launching thread is past the
    join loop both workers have completed. *)
Theorem main_waits_for_workers (sched : list tid) (w : World) :
  let trace := (run show_id sched (start w)).1 in
  let final := state_of (run show_id sched (start w)).2 in
  (forall t t', (t, EvJoin t') ∈ trace ->
     exists th, pool final !! t' = Some th /\ code th = []) /\
  (forall m, pool final !! 0%nat = Some m -> code m = [] ->
     exists w1 w2, pool final = [m; w1; w2] /\ code w1 = [] /\ code w2 = []).
Proof.
  intros trace final. split.
  - intros t t'. apply run_join_finished.
  - intros m Hl Hc.
    pose proof (run_main_inv sched (start w) (main_inv_start w)) as Hinv.
    fold final in Hinv. unfold main_inv in Hinv.
    destruct (pool final) as [|m' [|w1 [|w2 [|w3 p]]]]; try done;
      simpl in Hl; injection Hl as ->.
    + destruct Hinv as [Hm _]. rewrite Hc in Hm. discriminate.
    + destruct Hinv as [Hm _]. rewrite Hc in Hm. discriminate.
    + destruct Hinv as (_ & _ & [[Hm _]|[Hm|[[Hm _]|(_ & H1 & H2)]]]);
        try (rewrite Hc in Hm; discriminate).
      exists w1, w2. auto.
Qed.


End ThreadFacts.

(** ** All the examples *)
Section AllExamples.
Import Threads.
Import ThreadRuns.
Variable show_double : Templates.double -> string.
Variable show_id : tid -> string.

Lemma hermetic_mains : Forall hermetic (sequential_mains show_double).
Proof.
  unfold sequential_mains.
  apply List.Forall_cons; [apply hermetic_crtp_main|].
  apply List.Forall_cons; [apply hermetic_virtual_main|].
  apply List.Forall_cons; [apply hermetic_vectors_main|].
  apply List.Forall_cons; [apply hermetic_templates_main|].
  apply List.Forall_cons; [apply hermetic_unique_ptr_main|].
  apply List.Forall_cons; [apply hermetic_make_example_main|].
  apply List.Forall_cons; [apply hermetic_shared_ptr_main|].
  apply List.Forall_cons; [apply hermetic_move_main|].
  apply List.Forall_nil.
Qed.

(** C7: every example leaves the command line, the standard input, the
    files and the network as they are, behaves the same whatever they
    hold, and only appends text to the standard output. *)
Theorem only_effect_is_stdout :
  Forall stdout_only (sequential_mains show_double) /\
  (forall sched w,
     let final := state_of (run show_id sched (start w)).2 in
     env (world final) = env w /\ exists text, cout (world final) = cout w +:+ text) /\
  (forall sched w e,
     run show_id sched (start (with_env e w)) =
     ((run show_id sched (start w)).1,
      result_with_env e (run show_id sched (start w)).2)).
Proof.
  split; [|split].
  - eapply List.Forall_impl; [|apply hermetic_mains]. now intros m [_ Hs].
  - intros sched w. apply (run_answers show_id sched (start w)).
  - intros sched w e. apply (run_with_env show_id e sched (start w)).
Qed.

End AllExamples.

(** * Further properties of the examples *)

(** ** The two sums *)
Section SumFacts.
Import Templates.
Import InitializerLists.

Lemma accumulate_is_sum_loop (values : list Z) : forall init,
  accumulate values init = sum_loop init values.
Proof.
  induction values as [|v rest IH]; intros init; simpl; [reflexivity|].
  destruct (CppInt.add init v); [apply IH|reflexivity].
Qed.

Lemma sum_loop_Some list : forall total r,
  sum_loop total list = Some r ->
  running_totals_fit total list = true /\ r = fold_left Z.add list total.
Proof.
  induction list as [|e rest IH]; intros total r; simpl.
  - intros [= <-]. auto.
  - destruct (CppInt.add total e) as [t'|] eqn:E; [|discriminate].
    apply add_Some in E as [-> Hr]. rewrite Hr. simpl. apply IH.
Qed.

Lemma fold_left_add (l : list Z) : forall a, fold_left Z.add l a = a + fold_left Z.add l 0.
Proof.
  induction l as [|x l IH]; intros a; simpl; [lia|].
  rewrite (IH (a + x)), (IH (0 + x)). lia.
Qed.

Lemma exact_sum_cons x l : exact_sum (x :: l) = x + exact_sum l.
Proof. unfold exact_sum. simpl. apply fold_left_add. Qed.

Lemma exact_sum_permutation (l l' : list Z) : l ≡ₚ l' -> exact_sum l = exact_sum l'.
Proof.
  induction 1 as [|x l l' _ IH|x y l|l l' l'' _ IH1 _ IH2].
  - reflexivity.
  - rewrite !exact_sum_cons. lia.
  - rewrite !exact_sum_cons. lia.
  - congruence.
Qed.

(** X1: the initializer-list [sum] returns a value exactly when every
    running total is representable as an [int], and the value is then the
    mathematical sum; in every other case an addition overflows. *)
Theorem sum_defined_iff_totals_fit (list : list Z) (r : Z) :
  sum list = Some r <-> running_totals_fit 0 list = true /\ r = exact_sum list.
Proof.
  split.
  - apply sum_loop_Some.
  - intros [Hfit ->]. unfold sum, exact_sum. now apply sum_loop_exact.
Qed.

(** X2: the order of the elements decides at most whether an addition
    overflows: two lists with the same elements whose sums are both
    defined have the same sum. *)
Theorem sum_of_rearranged_list (l l' : list Z) (r r' : Z) :
  l ≡ₚ l' -> sum l = Some r -> sum l' = Some r' -> r = r'.
Proof.
  intros Hp [_ ->]%sum_loop_Some [_ ->]%sum_loop_Some.
  now apply exact_sum_permutation.
Qed.

Lemma sum_of_rearranged_list_witness :
  ([1; 2] ≡ₚ [2; 1] /\ sum [1; 2] = Some 3 /\ sum [2; 1] = Some 3) /\ 3 = 3.
Proof.
  assert (Hp : [1; 2] ≡ₚ [2; 1]) by apply perm_swap.
  split; [split; [exact Hp|split; reflexivity]|].
  apply (sum_of_rearranged_list [1; 2] [2; 1] 3 3 Hp); reflexivity.
Defined.

(** The order does decide that: the same three elements overflow in one
    order and not in the other. *)
Example sum_order_matters :
  sum [CppInt.int_max; 1; -1] = None /\
  sum [CppInt.int_max; -1; 1] = Some CppInt.int_max.
Proof. split; reflexivity. Qed.

(** X3: the variadic template [sum], instantiated with [int], and the
    initializer-list [sum] agree on the same values: both return the same
    number or both overflow. *)
Theorem template_sum_is_list_sum (firstArgument : Z) (otherArguments : list Z) :
  Templates.sum firstArgument otherArguments = sum (firstArgument :: otherArguments).
Proof. apply accumulate_is_sum_loop. Qed.

End SumFacts.

(** ** The squaring loop *)
Section RangeForFacts.
Import RangeFor.

Lemma square_from_spec rest : forall done,
  square_from (length rest) (length done) (done ++ rest)%list =
  if squares_fit rest then Some (done ++ map (fun x => x * x) rest)%list else None.
Proof.
  induction rest as [|x rest IH]; intros done; [reflexivity|].
  cbn [length square_from].
  rewrite lookup_app_r, Nat.sub_diag by lia. cbn [lookup list_lookup].
  unfold mul. unfold squares_fit. cbn [forallb].
  destruct (CppInt.in_range (x * x)) eqn:E; [|reflexivity]. cbn [andb].
  replace (<[length done := x * x]> (done ++ x :: rest)%list)
    with ((done ++ [x * x]) ++ rest)%list.
  - replace (S (length done)) with (length (done ++ [x * x])%list)
      by (rewrite length_app; simpl; lia).
    rewrite IH. fold (squares_fit rest). rewrite <- app_assoc. reflexivity.
  - rewrite insert_app_r_alt, Nat.sub_diag by lia. rewrite <- app_assoc. reflexivity.
Qed.

(** X4: the loop [for (int& x : myArray) x = x*x;] replaces every element
    by its square, in place and once each, when every square is
    representable, and is undefined otherwise; elements between -46340
    and 46340 are always fine. *)
Theorem square_each_squares_every_element (myArray : list Z) :
  square_each myArray =
    (if squares_fit myArray then Some (map (fun x => x * x) myArray) else None) /\
  (Forall (fun x => -46340 <= x <= 46340) myArray -> squares_fit myArray = true).
Proof.
  split.
  - apply (square_from_spec myArray []).
  - unfold squares_fit. induction 1 as [|x l Hx _ IH]; [reflexivity|].
    simpl. rewrite IH, andb_true_r. apply in_range_spec.
    unfold CppInt.int_min, CppInt.int_max. nia.
Qed.

(** The array of the text. *)
Example square_1_to_5 :
  square_each [1; 2; 3; 4; 5] = Some [1; 4; 9; 16; 25] /\
  square_each [46341] = None.
Proof. split; reflexivity. Qed.

End RangeForFacts.

(** ** [getLarger] at its instances *)
Section GetLargerFacts.
Import Templates.

(** X5: for [int] the reference returned by [getLarger] is one of the two
    arguments and refers to the maximum of the two values; swapping the
    arguments can change the reference but not the value referred to. *)
Theorem getLarger_int_is_max {Loc} (mem : Loc -> Z) (a b : Loc) :
  (getLarger mem a b = a \/ getLarger mem a b = b) /\
  mem (getLarger mem a b) = Z.max (mem a) (mem b) /\
  mem (getLarger mem a b) = mem (getLarger mem b a).
Proof.
  unfold getLarger. simpl.
  destruct (Z.ltb_spec (mem b) (mem a)), (Z.ltb_spec (mem a) (mem b));
    (split; [auto|]); split; lia.
Qed.

(** X6: for every type whose [operator>] is irreflexive and asymmetric,
    neither argument is greater than the object [getLarger] returns. *)
Theorem getLarger_not_smaller {Loc T} `{Comparable T} (mem : Loc -> T) (a b : Loc) :
  (forall x : T, greater x x = false) ->
  (forall x y : T, greater x y = true -> greater y x = false) ->
  greater (mem a) (mem (getLarger mem a b)) = false /\
  greater (mem b) (mem (getLarger mem a b)) = false.
Proof.
  intros Hirr Hasym. unfold getLarger.
  destruct (greater (mem a) (mem b)) eqn:E; auto.
Qed.

Lemma string_greater_irrefl (x : string) : greater x x = false.
Proof. apply equal_not_greater. simpl. apply String.eqb_refl. Qed.

Lemma string_greater_asym (x y : string) : greater x y = true -> greater y x = false.
Proof.
  simpl. unfold String.ltb. rewrite (String.compare_antisym x y).
  destruct (String.compare y x); simpl; congruence.
Qed.

Lemma getLarger_not_smaller_witness :
  let mem : bool -> string := fun l => if l then "Hello" else "World" in
  ((forall x : string, greater x x = false) /\
   (forall x y : string, greater x y = true -> greater y x = false)) /\
  greater (mem true) (mem (getLarger mem true false)) = false /\
  greater (mem false) (mem (getLarger mem true false)) = false.
Proof.
  intros mem. split; [split; [exact string_greater_irrefl|exact string_greater_asym]|].
  apply (getLarger_not_smaller mem true false string_greater_irrefl string_greater_asym).
Defined.

(** X7: for [double], when either value is a NaN no comparison holds and
    [getLarger] returns its second argument, whatever the other value. *)
Theorem getLarger_nan_returns_second {Loc} (mem : Loc -> double) (a b : Loc) :
  isnan (mem a) = true \/ isnan (mem b) = true -> getLarger mem a b = b.
Proof.
  unfold getLarger. simpl. unfold SFltb.
  destruct (mem a) as [| | |], (mem b) as [| | |]; simpl; intros [?|?];
    try discriminate; reflexivity.
Qed.

Lemma getLarger_nan_returns_second_witness :
  let mem : bool -> double := fun l => if l then S754_nan else double_2_5 in
  (isnan (mem true) = true \/ isnan (mem false) = true) /\
  getLarger mem true false = false.
Proof.
  intros mem. split; [left; reflexivity|].
  apply (getLarger_nan_returns_second mem true false). left. reflexivity.
Defined.

End GetLargerFacts.

(** ** The sequential examples, statement by statement *)
Section SequentialFacts.
Import CRTP.

(** X8: the CRTP version does what the version with virtual functions
    does: [render] of a circle and of a square, and [main], are the same
    processes in both. *)
Theorem crtp_matches_virtual :
  CRTP.render CRTP.circle = VirtualShapes.render VirtualShapes.Circle /\
  CRTP.render CRTP.square = VirtualShapes.render VirtualShapes.Square /\
  CRTP.main = VirtualShapes.main.
Proof. repeat split. Qed.

Import Vectors.

(** X9: [emplace_back] requests storage only when the vector is full, and
    memory for its string argument and for the copy in the member only
    when the literal does not fit inside a [std::string]; for the short
    literals of the example that is one request at most.  With every
    request granted it writes the one line of the constructor and returns
    the vector with the new element at its end, the elements before it
    kept; otherwise it throws [std::bad_alloc] with nothing written. *)
Theorem emplace_back_appends (myVector : vector) (x : Z) (literal : string)
    (w : World) :
  let n := emplace_back_requests myVector literal in
  match emplace_back myVector x literal w with
  | Returned v' w' =>
      elements v' = (elements myVector ++ [ {| m_x := x; m_y := literal |} ])%list /\
      w' = consumed w n (constructed x literal) /\
      Forall (eq false) (take n (supply w))
  | Uncaught e w' =>
      e = bad_alloc /\ cout w' = cout w /\ ~ Forall (eq false) (take n (supply w))
  | Undefined _ => False
  end.
Proof.
  unfold emplace_back_requests, emplace_back, room_for_one, MyClass_ctor, std_string.
  destruct (length (elements myVector) <? capacity myVector)%nat,
    (String.length literal <=? small_capacity)%nat eqn:Hfits.
  all: unfold acquire, mbind, Process_bind, mret, Process_ret, cout_put, consumed,
         constructed.
  all: destruct w as [e c s]; destruct s as [|[] [|[] [|[] s]]];
         cbn -[String.append]; rewrite ?Hfits; cbn -[String.append].
  all: split; [reflexivity|]; split.
  all: try (intros H;
            repeat match goal with
                   | H : Forall _ (_ :: _) |- _ => inversion H; clear H; subst
                   end; discriminate).
  all: try (repeat constructor).
  all: try (f_equal; rewrite !append_assoc; reflexivity).
Qed.

(** The first call of the example: storage is requested once, and the
    short literal requests nothing; the second answer is not used. *)
Example emplace_back_requests_once :
  emplace_back {| elements := []; capacity := 0 |} 1 "Apple"
    {| env := env empty_world; cout := ""; supply := [false; true] |} =
  Returned {| elements := [ {| m_x := 1; m_y := "Apple" |} ]; capacity := 1 |}
    {| env := env empty_world; cout := "Constructed MyClass(1, Apple)" +:+ endl;
       supply := [true] |}.
Proof. reflexivity. Qed.

Lemma consumed_consumed w n a m b :
  consumed (consumed w n a) m b = consumed w (n + m) (a +:+ b).
Proof. unfold consumed. simpl. now rewrite drop_drop, append_assoc. Qed.

Lemma granted_split (s : list bool) n m :
  Forall (eq false) (take (n + m) s) ->
  Forall (eq false) (take n s) /\ Forall (eq false) (take m (drop n s)).
Proof. rewrite <- take_take_drop. apply Forall_app. Qed.

Lemma emplace_back_granted (myVector : vector) (x : Z) (literal : string)
    (w : World) :
  Forall (eq false) (take (emplace_back_requests myVector literal) (supply w)) ->
  emplace_back myVector x literal w =
  Returned
    {| elements := (elements myVector ++ [ {| m_x := x; m_y := literal |} ])%list;
       capacity := if (length (elements myVector) <? capacity myVector)%nat
                   then capacity myVector else grown (capacity myVector) |}
    (consumed w (emplace_back_requests myVector literal) (constructed x literal)).
Proof.
  unfold emplace_back_requests, emplace_back, room_for_one, MyClass_ctor, std_string.
  destruct (length (elements myVector) <? capacity myVector)%nat,
    (String.length literal <=? small_capacity)%nat eqn:Hfits.
  all: unfold acquire, mbind, Process_bind, mret, Process_ret, cout_put, consumed,
         constructed.
  all: destruct w as [e c s]; destruct s as [|[] [|[] [|[] s]]];
         cbn -[String.append]; rewrite ?Hfits; cbn -[String.append]; intros H.
  all: try (exfalso;
            repeat match goal with
                   | H : Forall _ (_ :: _) |- _ => inversion H; clear H; subst
                   end; discriminate).
  all: f_equal; f_equal; rewrite !append_assoc; reflexivity.
Qed.

(** X10: [main] of the emplace_back example makes three requests, one for
    storage at each call.  When they are granted it returns 0 having
    written the three constructor lines in the order of the calls: Apple,
    Banana, Cherry. *)
Theorem vectors_main_constructs_in_order (w : World) :
  Forall (eq false) (take 3 (supply w)) ->
  Vectors.main w =
  Returned 0
    (consumed w 3
       (constructed 1 "Apple" +:+ constructed 2 "Banana" +:+
        constructed 3 "Cherry")).
Proof.
  intros H. apply (granted_split _ 1 2) in H as [H1 H].
  apply (granted_split _ 1 1) in H as [H2 H3].
  unfold Vectors.main, mbind, Process_bind.
  rewrite emplace_back_granted by exact H1.
  rewrite emplace_back_granted by exact H2.
  rewrite emplace_back_granted by exact H3.
  rewrite !consumed_consumed. reflexivity.
Qed.

Lemma vectors_main_constructs_in_order_witness :
  Forall (eq false) (take 3 (supply empty_world)) /\
  Vectors.main empty_world =
  Returned 0
    (consumed empty_world 3
       (constructed 1 "Apple" +:+ constructed 2 "Banana" +:+
        constructed 3 "Cherry")).
Proof.
  split; [constructor|].
  apply (vectors_main_constructs_in_order empty_world). constructor.
Defined.

Import SmartPointers.

(** X11: a [Resource] that was acquired is released before [main] ends,
    however it ends.  The unique_ptr example makes one request and the
    shared_ptr example two; when the first is refused nothing is written,
    and when the control block of the [shared_ptr] is refused the
    resource is still released before [std::bad_alloc] leaves [main]. *)
Theorem resource_released_whenever_acquired (w : World) :
  unique_ptr_main w =
    match supply w with
    | true :: rest => Uncaught bad_alloc (consumed w 1 "")
    | _ => Returned 0 (consumed w 1 (acquired +:+ released))
    end /\
  shared_ptr_main w =
    match supply w with
    | true :: rest => Uncaught bad_alloc (consumed w 1 "")
    | false :: true :: rest =>
        Uncaught bad_alloc (consumed w 2 (acquired +:+ released))
    | _ => Returned 0 (consumed w 2 (acquired +:+ released))
    end.
Proof.
  unfold unique_ptr_main, useResource, shared_ptr_main, make_unique, new,
    shared_ptr_ctor, shared_ptr_dtor, unique_ptr_dtor, Resource_ctor, Resource_dtor,
    acquire, mbind, Process_bind, mret, Process_ret, cout_put, consumed,
    acquired, released.
  destruct w as [e c s].
  destruct s as [|[] [|[] s]]; cbv -[String.append].
  all: split; f_equal; f_equal; rewrite ?append_assoc, ?append_empty_r; reflexivity.
Qed.

(** X12: [displayValue] makes one request; when it is granted the call
    writes the line with its argument and returns, and when it is refused
    nothing is written.  The pointer it dereferences always owns an
    object. *)
Theorem displayValue_prints_value (value : Z) (w : World) :
  displayValue value w =
    match supply w with
    | true :: rest => Uncaught bad_alloc (consumed w 1 "")
    | _ => Returned tt (consumed w 1 ("Value: " +:+ pretty value +:+ endl))
    end.
Proof.
  unfold displayValue, make_unique, new, arrow, defined, display, unique_ptr_dtor,
    MyClass_ctor, MyClass_dtor, acquire, mbind, Process_bind, mret, Process_ret,
    cout_put, consumed.
  destruct w as [e c s].
  destruct s as [|[] s]; cbv -[String.append pretty].
  all: f_equal; f_equal; rewrite ?append_assoc, ?append_empty_r; reflexivity.
Qed.

Import MoveSemantics.

(** X13: [move_constructor] and [move_assignment] destroy each of their
    two objects once, at the end, the moved-from object included: two
    destructor lines follow the lines of the constructors and of the
    move. *)
Theorem move_functions_destroy_both_objects (w : World) :
  move_constructor w =
    Returned tt
      (printed w
         ("Constructor" +:+ endl +:+ "Move Constructor" +:+ endl +:+
          "Destructor" +:+ endl +:+ "Destructor" +:+ endl)) /\
  move_assignment w =
    Returned tt
      (printed w
         ("Constructor" +:+ endl +:+ "Constructor" +:+ endl +:+
          "Move Assignment Operator" +:+ endl +:+
          "Destructor" +:+ endl +:+ "Destructor" +:+ endl)).
Proof.
  unfold move_constructor, move_assignment, destroy, move_ctor, move_assign,
    MovableClass_ctor, MovableClass_dtor, mbind, Process_bind.
  cbn -[String.append].
  rewrite lookup_insert_eq. cbn -[String.append].
  rewrite lookup_delete_ne by done. rewrite lookup_insert_ne by done.
  rewrite lookup_insert_eq. cbn -[String.append].
  unfold printed, mret, Process_ret.
  split; f_equal; f_equal; rewrite !append_assoc; reflexivity.
Qed.

End SequentialFacts.

(** ** The threads example: progress, termination and output *)
Section ScheduleFacts.
Import Threads.
Import ThreadRuns.
Variable show_id : tid -> string.

Lemma printing_can_step st t th :
  lock_inv st -> pool st !! t = Some th -> printing th -> finished th = false ->
  exists t', step show_id t' st <> Blocked.
Proof.
  intros [Hok Hown] Hl Hp Hf. pose proof (Hok t th Hl) as Ht.
  unfold printing in Hp. unfold finished in Hf. unfold holds in Ht.
  destruct (code th) as [|i rest] eqn:Ec; [discriminate|].
  simpl in Hp. apply andb_true_iff in Hp as [Hi _].
  destruct i; try discriminate.
  - exists t. unfold step. rewrite Hl, Ec. repeat case_match; discriminate.
  - exists t. unfold step. rewrite Hl, Ec. discriminate.
  - exists t. unfold step. rewrite Hl, Ec. repeat case_match; discriminate.
  - destruct (coutMutex st) as [t'|] eqn:Em.
    + pose proof (Hown t' eq_refl) as Hlt.
      apply lookup_lt_is_Some in Hlt as [th' Hl'].
      pose proof (Hok t' th' Hl') as Ht'. unfold holds in Ht'. rewrite Em in Ht'.
      rewrite bool_decide_eq_true_2 in Ht' by reflexivity.
      exists t'. unfold step. rewrite Hl'.
      destruct (code th') as [|[] rest']; simpl in Ht'; try discriminate.
      * repeat case_match; discriminate.
      * rewrite Em. destruct (decide (Some t' = Some t')); [discriminate|congruence].
    + exists t. unfold step. rewrite Hl, Ec, Em. discriminate.
  - exists t. unfold step. rewrite Hl, Ec. repeat case_match; discriminate.
  - simpl in Ht. apply andb_true_iff in Ht as [Hh _].
    apply bool_decide_eq_true in Hh.
    exists t. unfold step. rewrite Hl, Ec.
    destruct (decide (coutMutex st = Some t)); [discriminate|congruence].
Qed.

Lemma unfinished_thread (l : list thread) :
  forallb finished l = false -> exists t th, l !! t = Some th /\ finished th = false.
Proof.
  induction l as [|x l IH]; simpl; [discriminate|].
  destruct (finished x) eqn:E; simpl.
  - intros H. destruct (IH H) as (t & th & ? & ?). exists (S t), th. auto.
  - intros _. exists 0%nat, x. auto.
Qed.

Lemma step_keeps_all_printing t st ev st' :
  all_printing st -> step show_id t st = Stepped ev st' ->
  all_printing st' /\ length (pool st') = length (pool st).
Proof.
  unfold all_printing. intros Hall Hstep. unfold step in Hstep.
  destruct (pool st !! t) as [th|] eqn:Et; [|discriminate].
  destruct (code th) as [|i rest] eqn:Ec; [discriminate|].
  assert (Hp : printing th) by (eapply Forall_lookup_1; eauto).
  unfold printing in Hp. rewrite Ec in Hp. simpl in Hp.
  apply andb_true_iff in Hp as [Hi Hrest].
  destruct i; try discriminate; repeat case_match; simplify_eq/=.
  all: rewrite length_insert; split; [|reflexivity].
  all: apply Forall_insert; [exact Hall|exact Hrest].
Qed.

Lemma run_all_printing sched : forall st,
  all_printing st -> all_printing (state_of (run show_id sched st).2).
Proof.
  induction sched as [|t sched IH]; intros st Hall; simpl; [exact Hall|].
  destruct (step show_id t st) as [|ev st'|e st'] eqn:Hstep; [now apply IH| |].
  - destruct (step_keeps_all_printing _ _ _ _ Hall Hstep) as [Hall' _].
    specialize (IH st' Hall').
    destruct (run show_id sched st') as [trace r]. exact IH.
  - simpl. unfold all_printing. now rewrite (step_fault_pool show_id _ _ _ _ Hstep).
Qed.

Lemma all_printing_callers messages w : all_printing (callers messages w).
Proof.
  unfold all_printing, callers. simpl. apply Forall_fmap, Forall_forall.
  intros ms _. apply prints_calls.
Qed.

Lemma printing_progress st :
  lock_inv st -> all_printing st ->
  all_finished st = true \/ exists t, step show_id t st <> Blocked.
Proof.
  intros Hinv Hall. unfold all_finished.
  destruct (forallb finished (pool st)) eqn:Hf; [now left|right].
  apply unfinished_thread in Hf as (t & th & Hl & Hu).
  eapply printing_can_step; eauto.
  eapply Forall_lookup_1; eauto.
Qed.

(** X14: threads that call [printMessage] never deadlock.  Under every
    schedule, in the state reached either every thread has run to its end
    or some thread can take its next step: a thread waiting for the mutex
    waits for an owner that can go on. *)
Theorem callers_never_deadlock (messages : list (list string)) (sched : list tid)
    (w : World) :
  let final := state_of (run show_id sched (callers messages w)).2 in
  all_finished final = true \/ exists t, step show_id t final <> Blocked.
Proof.
  intros final. apply printing_progress.
  - apply run_lock_inv, lock_inv_callers.
  - apply run_all_printing, all_printing_callers.
Qed.

Lemma main_inv_progress st :
  lock_inv st -> main_inv st ->
  all_finished st = true \/ exists t, step show_id t st <> Blocked.
Proof.
  intros Hlock Hmain. unfold main_inv in Hmain. unfold all_finished.
  destruct (pool st) as [|m [|w1 [|w2 [|w3 p]]]] eqn:Ep; try done.
  - destruct Hmain as [Hc _]. right. exists 0%nat. unfold step. rewrite Ep. simpl.
    rewrite Hc. simpl. repeat case_match; discriminate.
  - destruct Hmain as (Hc & _). right. exists 0%nat. unfold step. rewrite Ep. simpl.
    rewrite Hc. simpl. repeat case_match; discriminate.
  - destruct Hmain as (Hp1 & Hp2 & [[Hc _]|[Hc|[[Hc Hc1]|(Hc & Hc1 & Hc2)]]]).
    + right. exists 0%nat. unfold step. rewrite Ep. simpl. rewrite Hc. discriminate.
    + destruct (code w1) as [|i r] eqn:Hf.
      * right. exists 0%nat. unfold step. rewrite Ep. simpl. rewrite Hc. simpl.
        unfold finished. rewrite Hf. discriminate.
      * right. apply (printing_can_step st 1 w1); auto; [now rewrite Ep|].
        unfold finished. now rewrite Hf.
    + destruct (code w2) as [|i r] eqn:Hf.
      * right. exists 0%nat. unfold step. rewrite Ep. simpl. rewrite Hc. simpl.
        unfold finished. rewrite Hf. discriminate.
      * right. apply (printing_can_step st 2 w2); auto; [now rewrite Ep|].
        unfold finished. now rewrite Hf.
    + left. simpl. unfold finished. now rewrite Hc, Hc1, Hc2.
Qed.

(** X15: the example never deadlocks.  Under every schedule, in the state
    reached either the launching thread and both workers have run to their
    end or some thread can take its next step: a join waits only for a
    worker that can go on or that has finished. *)
Theorem example_never_deadlocks (sched : list tid) (w : World) :
  let final := state_of (run show_id sched (start w)).2 in
  all_finished final = true \/ exists t, step show_id t final <> Blocked.
Proof.
  intros final. apply main_inv_progress.
  - apply run_lock_inv, lock_inv_start.
  - apply run_main_inv, main_inv_start.
Qed.

Lemma weight_printing n statements :
  forallb prints statements = true -> weight n statements = length statements.
Proof.
  induction statements as [|i rest IH]; simpl; [reflexivity|].
  intros [Hi Hr]%andb_true_iff. destruct i; try discriminate; simpl; now rewrite IH.
Qed.

Lemma weight_joins n js rest :
  weight n (map Join js ++ rest) = (length js + weight n rest)%nat.
Proof. induction js as [|j js IH]; simpl; [reflexivity|]. now rewrite IH. Qed.

Lemma sum_insert (f : thread -> nat) (l : list thread) : forall t x y,
  l !! t = Some x ->
  (sum_list_with f (<[t:=y]> l) + f x = sum_list_with f l + f y)%nat.
Proof.
  induction l as [|a l IH]; intros [|t] x y; simpl; try discriminate.
  - intros [= ->]. lia.
  - intros Hl. specialize (IH t x y Hl). lia.
Qed.

Lemma prints_body f : forallb prints (body f) = true.
Proof. destruct f; reflexivity. Qed.

Lemma step_remaining t st ev st' :
  step show_id t st = Stepped ev st' -> remaining st = S (remaining st').
Proof.
  unfold step. intros Hstep.
  destruct (pool st !! t) as [th|] eqn:Et; [|discriminate].
  destruct (code th) as [|i rest] eqn:Ec; [discriminate|].
  unfold remaining.
  destruct i; repeat case_match; simplify_eq/=.
  all: rewrite ?sum_list_with_app; simpl.
  all: match goal with
       | E : ?p !! ?t0 = Some ?th0, C : code ?th0 = _ |- context [<[?t0:=?y]> ?p] =>
           pose proof (sum_insert thread_weight p t0 th0 y E) as Hs;
           unfold thread_weight in *; rewrite C in Hs; simpl in *
       end.
  all: rewrite ?weight_joins, ?weight_printing, ?length_app, ?Nat.add_1_r in *
         by apply prints_body.
  all: simpl in *; lia.
Qed.

Lemma run_remaining sched : forall st,
  (length (run show_id sched st).1 + remaining (state_of (run show_id sched st).2) =
   remaining st)%nat.
Proof.
  induction sched as [|t sched IH]; intros st; simpl; [reflexivity|].
  destruct (step show_id t st) as [|ev st'|e st'] eqn:Hstep; [apply IH| |].
  - rewrite (step_remaining _ _ _ _ Hstep). specialize (IH st').
    destruct (run show_id sched st') as [trace r]. simpl in *. lia.
  - simpl. unfold remaining. now rewrite (step_fault_pool show_id _ _ _ _ Hstep).
Qed.

Lemma remaining_callers messages w :
  remaining (callers messages w) = (9 * length (concat messages))%nat.
Proof.
  unfold remaining, callers. simpl.
  induction messages as [|ms messages IH]; simpl; [reflexivity|].
  rewrite IH, length_app. unfold thread_weight. simpl.
  rewrite weight_printing by apply prints_calls.
  assert (length (flat_map printMessage ms) = 9 * length ms)%nat as ->; [|lia].
  clear. induction ms as [|m ms IH]; simpl; [reflexivity|]. rewrite IH. lia.
Qed.

Lemma weight_zero n statements : weight n statements = 0%nat -> statements = [].
Proof. destruct statements as [|[] rest]; simpl; (reflexivity || discriminate). Qed.

Lemma remaining_zero st : remaining st = 0%nat <-> all_finished st = true.
Proof.
  unfold remaining, all_finished. generalize (pool st). intros l.
  induction l as [|th l IH]; simpl; [done|].
  rewrite andb_true_iff, <- IH. unfold thread_weight, finished. split.
  - intros H. assert (Hw : weight (length (threadsVector th)) (code th) = 0%nat) by lia.
    rewrite (weight_zero _ _ Hw). split; [reflexivity|lia].
  - intros [Hf Hl]. destruct (code th); [simpl; lia|discriminate].
Qed.

(** X16: the number of steps is bounded whatever the schedule: callers of
    [printMessage] take nine steps for each call, the example twenty-five
    in all, and a run has taken all of them exactly when every thread has
    run to its end.  No schedule keeps the threads running for ever. *)
Theorem steps_are_bounded (sched : list tid) (w : World) :
  (forall messages,
     let trace := (run show_id sched (callers messages w)).1 in
     let final := state_of (run show_id sched (callers messages w)).2 in
     (length trace <= 9 * length (concat messages))%nat /\
     (all_finished final = true <->
      length trace = (9 * length (concat messages))%nat)) /\
  (let trace := (run show_id sched (start w)).1 in
   let final := state_of (run show_id sched (start w)).2 in
   (length trace <= 25)%nat /\ (all_finished final = true <-> length trace = 25%nat)).
Proof.
  split.
  - intros messages trace final.
    pose proof (run_remaining sched (callers messages w)) as H.
    rewrite remaining_callers in H. fold trace final in H.
    rewrite <- remaining_zero. lia.
  - intros trace final.
    pose proof (run_remaining sched (start w)) as H.
    change (remaining (start w)) with 25%nat in H. fold trace final in H.
    rewrite <- remaining_zero. lia.
Qed.

Lemma run_app sched1 sched2 : forall st st1,
  (run show_id sched1 st).2 = Running st1 ->
  (run show_id (sched1 ++ sched2) st).2 = (run show_id sched2 st1).2.
Proof.
  induction sched1 as [|t sched1 IH]; intros st st1; simpl.
  - now intros [= ->].
  - destruct (step show_id t st) as [|ev st'|e st']; [apply IH| |discriminate].
    specialize (IH st' st1).
    destruct (run show_id sched1 st') as [trace r].
    destruct (run show_id (sched1 ++ sched2) st') as [trace' r']. exact IH.
Qed.

Section Completion.
Variable Inv : state -> Prop.
Hypothesis Inv_step : forall t st ev st',
  Inv st -> step show_id t st = Stepped ev st' -> Inv st'.
Hypothesis Inv_progress : forall st,
  Inv st -> all_finished st = true \/ exists t, step show_id t st <> Blocked.

Lemma finish n : forall st,
  (remaining st <= n)%nat -> Inv st -> Forall (eq false) (supply (world st)) ->
  exists sched st', (run show_id sched st).2 = Running st' /\ all_finished st' = true.
Proof.
  induction n as [|n IH]; intros st Hn Hinv Hall.
  - destruct (Inv_progress st Hinv) as [Hf|[t Ht]]; [exists [], st; auto|].
    pose proof (step_supply show_id t st Hall) as Hs.
    destruct (step show_id t st) as [|ev st'|e st'] eqn:Hstep; [done| |done].
    apply step_remaining in Hstep. lia.
  - destruct (Inv_progress st Hinv) as [Hf|[t Ht]]; [exists [], st; auto|].
    pose proof (step_supply show_id t st Hall) as Hs.
    destruct (step show_id t st) as [|ev st'|e st'] eqn:Hstep; [done| |done].
    destruct (IH st') as (sched & st2 & Hrun & Hfin); auto.
    { apply step_remaining in Hstep. lia. }
    { eapply Inv_step; eauto. }
    exists (t :: sched), st2. simpl. rewrite Hstep.
    destruct (run show_id sched st') as [trace r]. auto.
Qed.

Lemma extend_to_finish sched st :
  Inv st -> Forall (eq false) (supply (world st)) ->
  exists sched' final,
    (run show_id (sched ++ sched') st).2 = Running final /\ all_finished final = true.
Proof.
  intros Hinv Hall.
  destruct (run_supply show_id sched st Hall) as (st1 & Hrun & Hall1).
  assert (Hinv1 : Inv st1).
  { clear Hall Hall1. revert st st1 Hinv Hrun.
    induction sched as [|t sched IH]; intros st st1 Hinv; simpl.
    - now intros [= <-].
    - destruct (step show_id t st) as [|ev st'|e st'] eqn:Hstep;
        [now apply IH| |discriminate].
      specialize (IH st' st1 (Inv_step _ _ _ _ Hinv Hstep)).
      destruct (run show_id sched st') as [trace r]. exact IH. }
  destruct (finish (remaining st1) st1) as (sched' & final & Hrun' & Hfin); auto.
  exists sched', final. split; [|exact Hfin].
  rewrite (run_app sched sched' st st1 Hrun). exact Hrun'.
Qed.

End Completion.

(** X17: when every request is granted, the example can always run to
    its end: whatever the threads have done so far, some continuation of
    the schedule ends with the process running and every thread
    finished. *)
Theorem example_can_always_finish (sched : list tid) (w : World) :
  Forall (eq false) (supply w) ->
  exists sched' final,
    (run show_id (sched ++ sched') (start w)).2 = Running final /\
    all_finished final = true.
Proof.
  intros Hall.
  apply (extend_to_finish (fun st => lock_inv st /\ main_inv st)); auto.
  - intros t st ev st' [Hl Hm] Hstep. split.
    + now destruct (step_keeps_lock_inv show_id _ _ _ _ Hl Hstep).
    + eapply step_keeps_main_inv; eauto.
  - intros st [Hl Hm]. now apply main_inv_progress.
  - split; [apply lock_inv_start|apply main_inv_start].
Qed.

(** X18: when every request is granted, threads that call [printMessage]
    can always run to their end: whatever they have done so far, some
    continuation of the schedule ends with every call completed. *)
Theorem callers_can_always_finish (messages : list (list string)) (sched : list tid)
    (w : World) :
  Forall (eq false) (supply w) ->
  exists sched' final,
    (run show_id (sched ++ sched') (callers messages w)).2 = Running final /\
    all_finished final = true.
Proof.
  intros Hall.
  apply (extend_to_finish (fun st => lock_inv st /\ all_printing st)); auto.
  - intros t st ev st' [Hl Hp] Hstep. split.
    + now destruct (step_keeps_lock_inv show_id _ _ _ _ Hl Hstep).
    + now destruct (step_keeps_all_printing _ _ _ _ Hp Hstep).
  - intros st [Hl Hp]. now apply printing_progress.
  - split; [apply lock_inv_callers|apply all_printing_callers].
Qed.

Lemma step_cout t st :
  match step show_id t st with
  | Blocked => True
  | Stepped ev st' =>
      cout (world st') = cout (world st) +:+ joined (writes [ev])
  | Faulted _ st' => cout (world st') = cout (world st)
  end.
Proof.
  unfold step. repeat case_match; simplify_eq/=; rewrite ?append_empty_r; done.
Qed.

Lemma run_cout sched : forall st,
  cout (world (state_of (run show_id sched st).2)) =
  cout (world st) +:+ joined (map snd (written (run show_id sched st).1)).
Proof.
  induction sched as [|t sched IH]; intros st; simpl.
  - now rewrite append_empty_r.
  - pose proof (step_cout t st) as Hc.
    destruct (step show_id t st) as [|ev st'|e st']; [apply IH| |].
    + specialize (IH st'). destruct (run show_id sched st') as [trace r].
      simpl in *. rewrite IH, Hc.
      destruct ev; simpl; rewrite ?append_empty_r, ?append_assoc; reflexivity.
    + simpl. now rewrite Hc, append_empty_r.
Qed.

Lemma lines_by_written t trace :
  lines_by t (written trace) = writes (events_by t trace).
Proof.
  induction trace as [|[t0 ev] trace IH]; [reflexivity|].
  rewrite events_by_cons. unfold lines_by in *.
  destruct ev; simpl; try (destruct (decide (t0 = t)); simpl; exact IH).
  rewrite filter_cons. simpl. destruct (decide (t0 = t)) as [->|Hne].
  - rewrite decide_True by now apply bool_decide_pack. simpl. now rewrite IH.
  - rewrite decide_False; [exact IH|]. now intros H%bool_decide_unpack.
Qed.

Lemma writes_app l1 l2 : writes (l1 ++ l2) = (writes l1 ++ writes l2)%list.
Proof.
  induction l1 as [|ev l1 IH]; [reflexivity|]. destruct ev; simpl; now rewrite ?IH.
Qed.

Lemma writes_calls t messages :
  writes (flat_map (call_events show_id t) messages) = map (formatted show_id t) messages.
Proof. induction messages as [|m ms IH]; simpl; [reflexivity|]. now rewrite IH. Qed.

Lemma all_finished_lookup st t th :
  all_finished st = true -> pool st !! t = Some th -> code th = [].
Proof.
  unfold all_finished. generalize (pool st). intros l. revert t.
  induction l as [|x l IH]; intros [|t]; simpl; try discriminate.
  - intros [Hx _]%andb_true_iff [= <-]. unfold finished in Hx.
    now destruct (code x).
  - intros [_ Hl]%andb_true_iff. now apply IH.
Qed.

Lemma run_absent sched : forall st t,
  all_printing st -> pool st !! t = None -> events_by t (run show_id sched st).1 = [].
Proof.
  induction sched as [|t0 sched IH]; intros st t Hall Hn; simpl; [reflexivity|].
  destruct (step show_id t0 st) as [|ev st'|e st'] eqn:Hstep; [now apply IH| |reflexivity].
  destruct (step_keeps_all_printing _ _ _ _ Hall Hstep) as [Hall' Hlen].
  assert (Hn' : pool st' !! t = None).
  { apply lookup_ge_None. rewrite Hlen. now apply lookup_ge_None. }
  specialize (IH st' t Hall' Hn').
  destruct (run show_id sched st') as [trace r]. simpl in *.
  rewrite events_by_cons. destruct (decide (t0 = t)) as [->|]; [|exact IH].
  unfold step in Hstep. rewrite Hn in Hstep. discriminate.
Qed.

Lemma writes_truncates events intended :
  Forall2 truncates events intended -> Forall2 begins (writes events) (writes intended).
Proof.
  induction 1 as [|a b events intended Hab _ IH]; [constructor|].
  destruct a, b; simpl in Hab; try discriminate; simpl; try exact IH.
  now constructor.
Qed.

(** The events of one of any number of callers, under every schedule. *)
Lemma callers_script messages sched w t :
  let trace := (run show_id sched (callers messages w)).1 in
  let final := state_of (run show_id sched (callers messages w)).2 in
  exists intended rest,
    flat_map (call_events show_id t) (default [] (messages !! t)) =
      (intended ++ rest)%list /\
    Forall2 truncates (events_by t trace) intended /\
    (Forall (eq false) (supply w) -> events_by t trace = intended) /\
    match pool final !! t with
    | Some th => code th = [] -> rest = []
    | None => rest = []
    end.
Proof.
  intros trace final.
  destruct (pool (callers messages w) !! t) as [th|] eqn:Hl.
  - pose proof Hl as (ms & Hms & Hc & Ho)%callers_lookup.
    assert (Hp : printing th) by (unfold printing; rewrite Hc; apply prints_calls).
    assert (Htr : tracks (oss th) "") by (rewrite Ho; apply tracks_ctor).
    destruct (run_script show_id sched _ t th "" Hl Hp Htr)
      as (th' & buffer' & intended & Hl' & _ & Hscript & Hev & Hexact).
    rewrite Hc, script_calls in Hscript. rewrite Hms. simpl.
    exists intended, (script show_id t buffer' (code th')).
    split; [exact Hscript|]. split; [exact Hev|]. split.
    + intros Hall. apply Hexact; [exact Hall|]. now rewrite Ho.
    + fold final in Hl'. rewrite Hl'. now intros ->.
  - exists [], []. unfold trace.
    rewrite run_absent by (apply all_printing_callers || exact Hl).
    assert (Hnone : messages !! t = None).
    { unfold callers in Hl. simpl in Hl. rewrite list_lookup_fmap in Hl.
      now destruct (messages !! t). }
    rewrite Hnone. simpl. split; [reflexivity|]. split; [constructor|].
    split; [reflexivity|]. now destruct (pool final !! t).
Qed.

Lemma callers_script_finished messages sched w t (rest : list event) :
  let final := state_of (run show_id sched (callers messages w)).2 in
  match pool final !! t with
  | Some th => code th = [] -> rest = []
  | None => rest = []
  end ->
  all_finished final = true -> rest = [].
Proof.
  intros final Hrest Hfin. destruct (pool final !! t) as [th|] eqn:Hl; [|exact Hrest].
  apply Hrest. eapply all_finished_lookup; eauto.
Qed.

(** X19: when every request for memory is granted, what threads calling
    [printMessage] have written is whole lines only, under every
    schedule: the standard output is the text it held followed by the
    lines written, and the lines of a thread are, in order and without
    repetition, the complete lines of its first calls; of all its calls
    once every thread has run to its end. *)
Theorem callers_print_whole_lines (messages : list (list string)) (sched : list tid)
    (w : World) :
  Forall (eq false) (supply w) ->
  let lines := written (run show_id sched (callers messages w)).1 in
  let final := state_of (run show_id sched (callers messages w)).2 in
  cout (world final) = cout w +:+ joined (map snd lines) /\
  (forall t, lines_by t lines `prefix_of`
             map (formatted show_id t) (default [] (messages !! t))) /\
  (all_finished final = true ->
   forall t, lines_by t lines = map (formatted show_id t) (default [] (messages !! t))).
Proof.
  intros Hall lines final. split; [apply (run_cout sched (callers messages w))|].
  split.
  - intros t. destruct (callers_script messages sched w t)
      as (intended & rest & Hscript & _ & Hexact & _).
    unfold lines. rewrite lines_by_written, <- writes_calls, Hscript, writes_app.
    rewrite (Hexact Hall). now apply prefix_app_r.
  - intros Hfin t. destruct (callers_script messages sched w t)
      as (intended & rest & Hscript & _ & Hexact & Hrest).
    unfold lines. rewrite lines_by_written, <- writes_calls, Hscript, writes_app.
    rewrite (Hexact Hall), (callers_script_finished _ _ _ _ _ Hrest Hfin).
    now rewrite app_nil_r.
Qed.

(** X22: whatever is refused, a thread calling [printMessage] writes at
    most once for each of its calls, in the order of the calls, and what
    it writes is the beginning of the complete line of that call: a
    refused request can cut a line short, and nothing else.  Once every
    thread has run to its end each call has written once. *)
Theorem written_texts_begin_their_lines (messages : list (list string))
    (sched : list tid) (w : World) :
  let lines := written (run show_id sched (callers messages w)).1 in
  let final := state_of (run show_id sched (callers messages w)).2 in
  cout (world final) = cout w +:+ joined (map snd lines) /\
  forall t, exists complete,
    complete `prefix_of` map (formatted show_id t) (default [] (messages !! t)) /\
    Forall2 begins (lines_by t lines) complete /\
    (all_finished final = true ->
     complete = map (formatted show_id t) (default [] (messages !! t))).
Proof.
  intros lines final. split; [apply (run_cout sched (callers messages w))|].
  intros t. destruct (callers_script messages sched w t)
    as (intended & rest & Hscript & Hev & _ & Hrest).
  exists (writes intended). split; [|split].
  - rewrite <- writes_calls, Hscript, writes_app. now apply prefix_app_r.
  - unfold lines. rewrite lines_by_written. now apply writes_truncates.
  - intros Hfin. rewrite <- writes_calls, Hscript.
    rewrite (callers_script_finished _ _ _ _ _ Hrest Hfin). now rewrite app_nil_r.
Qed.

(** The events of a worker of the example, under every schedule. *)
Lemma worker_script sched w t f :
  worker t f ->
  let trace := (run show_id sched (start w)).1 in
  let final := state_of (run show_id sched (start w)).2 in
  exists intended rest,
    script show_id t "" (body f) = (intended ++ rest)%list /\
    Forall2 truncates (events_by t trace) intended /\
    (Forall (eq false) (supply w) -> events_by t trace = intended) /\
    (all_finished final = true -> rest = []).
Proof.
  intros Hw trace final.
  assert (Hnone : pool (start w) !! t = None) by (destruct Hw as [[-> _]|[-> _]]; done).
  destruct (run_worker_script show_id sched (start w) t f "" (main_inv_start w) Hw)
    as (buffer' & intended & Hscript & Hev & Hexact).
  { intros th Hl. rewrite Hnone in Hl. discriminate. }
  rewrite Hnone in Hscript. fold final in Hscript. fold trace in Hev, Hexact.
  eexists intended, _. split; [exact Hscript|]. split; [exact Hev|]. split.
  - intros Hall. apply Hexact; [exact Hall|].
    intros th Hl. rewrite Hnone in Hl. discriminate.
  - intros Hfin.
    assert (Hm : main_inv final) by apply run_main_inv, main_inv_start.
    destruct (pool final !! t) as [th|] eqn:Hl.
    + now rewrite (all_finished_lookup _ _ _ Hfin Hl).
    + exfalso. unfold main_inv in Hm. unfold all_finished in Hfin.
      destruct (pool final) as [|m [|w1 [|w2 [|w3 p]]]]; try done.
      * destruct Hm as [Hc _]. simpl in Hfin. unfold finished in Hfin.
        rewrite Hc in Hfin. discriminate.
      * destruct Hm as [Hc _]. simpl in Hfin. unfold finished in Hfin.
        rewrite Hc in Hfin. discriminate.
      * destruct Hw as [[-> _]|[-> _]]; discriminate.
Qed.

Lemma step_write_worker t st s st' :
  main_inv st -> step show_id t st = Stepped (EvWrite s) st' -> t = 1%nat \/ t = 2%nat.
Proof.
  destruct st as [mx w p]. unfold main_inv, step. simpl.
  destruct t as [|[|[|t]]]; auto.
  - destruct p as [|m [|w1 [|w2 [|w3 p]]]]; try done; simpl.
    + intros [Hc _]. rewrite Hc. simpl. intros Hstep. repeat case_match; simplify_eq/=.
    + intros (Hc & _). rewrite Hc. simpl. intros Hstep. repeat case_match; simplify_eq/=.
    + intros (_ & _ & [[Hc _]|[Hc|[[Hc _]|(Hc & _)]]]); rewrite Hc; simpl;
        intros Hstep; repeat case_match; simplify_eq/=.
  - destruct p as [|m [|w1 [|w2 [|w3 p]]]]; try done; simpl; discriminate.
Qed.

Lemma run_written_workers sched : forall st,
  main_inv st ->
  Forall (fun l => l.1 = 1%nat \/ l.1 = 2%nat) (written (run show_id sched st).1).
Proof.
  induction sched as [|t sched IH]; intros st Hinv; simpl; [constructor|].
  destruct (step show_id t st) as [|ev st'|e st'] eqn:Hstep; [now apply IH| |constructor].
  specialize (IH st' (step_keeps_main_inv show_id _ _ _ _ Hinv Hstep)).
  destruct (run show_id sched st') as [trace r]. simpl in *.
  destruct ev; try exact IH.
  apply List.Forall_cons; [|exact IH].
  simpl. eapply step_write_worker; eauto.
Qed.

Lemma lines_by_cons t t0 s lines :
  lines_by t ((t0, s) :: lines) =
  if decide (t0 = t) then s :: lines_by t lines else lines_by t lines.
Proof.
  unfold lines_by. rewrite filter_cons. simpl.
  destruct (decide (t0 = t)) as [->|Hne].
  - now rewrite decide_True by now apply bool_decide_pack.
  - rewrite decide_False; [reflexivity|]. now intros H%bool_decide_unpack.
Qed.

Lemma two_lines (lines : list (tid * string)) (a b : string) :
  Forall (fun l => l.1 = 1%nat \/ l.1 = 2%nat) lines ->
  lines_by 1 lines = [a] -> lines_by 2 lines = [b] ->
  map snd lines = [a; b] \/ map snd lines = [b; a].
Proof.
  intros Hall H1 H2.
  destruct lines as [|[t1 s1] [|[t2 s2] [|[t3 s3] lines]]].
  - discriminate.
  - inversion Hall as [|? ? [E|E] _]; simpl in E; subst; discriminate.
  - inversion Hall as [|? ? [E1|E1] Hall']; simpl in E1; subst;
      inversion Hall' as [|? ? [E2|E2] _]; simpl in E2; subst;
      rewrite !lines_by_cons in H1, H2; repeat case_decide; simplify_eq; auto.
  - exfalso.
    inversion Hall as [|? ? [E1|E1] Hall']; simpl in E1; subst;
      inversion Hall' as [|? ? [E2|E2] Hall'']; simpl in E2; subst;
      inversion Hall'' as [|? ? [E3|E3] _]; simpl in E3; subst;
      rewrite !lines_by_cons in H1, H2; repeat case_decide; simplify_eq.
Qed.


(** X20: when every request is granted and the example has run to its
    end, the standard output holds exactly the two complete lines, the
    one of the lambda with the id of the first thread started and the one
    of [someThreadFunction] with the id of the second, in one of the two
    orders. *)
Theorem example_prints_both_lines (sched : list tid) (w : World) :
  let final := state_of (run show_id sched (start w)).2 in
  let line1 := formatted show_id 1 "Hello from the lambda function!" in
  let line2 := formatted show_id 2 "Hello from someThreadFunction()!" in
  Forall (eq false) (supply w) ->
  all_finished final = true ->
  cout (world final) = cout w +:+ line1 +:+ line2 \/
  cout (world final) = cout w +:+ line2 +:+ line1.
Proof.
  intros final line1 line2 Hall Hfin.
  assert (Hw : forall t f, worker t f ->
    lines_by t (written (run show_id sched (start w)).1) =
    writes (script show_id t "" (body f))).
  { intros t f Hw. rewrite lines_by_written.
    destruct (worker_script sched w t f Hw) as (intended & rest & Hscript & _ & Hexact & Hrest).
    rewrite Hscript, (Hexact Hall), (Hrest Hfin). now rewrite app_nil_r. }
  pose proof (Hw 1%nat lambda (or_introl (conj eq_refl eq_refl))) as H1.
  pose proof (Hw 2%nat someThreadFunction (or_intror (conj eq_refl eq_refl))) as H2.
  rewrite script_body in H1, H2. simpl in H1, H2.
  pose proof (run_written_workers sched (start w) (main_inv_start w)) as Hworkers.
  pose proof (run_cout sched (start w)) as Hc. fold final in Hc. simpl in Hc.
  destruct (two_lines _ _ _ Hworkers H1 H2) as [E|E]; rewrite E in Hc; simpl in Hc;
    rewrite append_empty_r in Hc; [left|right]; exact Hc.
Qed.

Lemma launches_joins next started js rest :
  launches next started (map Join js ++ rest) =
  (map EvJoin js ++ launches next started rest)%list.
Proof. induction js as [|j js IH]; simpl; [reflexivity|]. now rewrite IH. Qed.

Lemma step_launches t st ev st' m :
  main_inv st -> step show_id t st = Stepped ev st' -> pool st !! 0%nat = Some m ->
  exists m', pool st' !! 0%nat = Some m' /\
    launches (length (pool st)) (threadsVector m) (code m) =
    ((if decide (t = 0%nat) then [ev] else []) ++
     launches (length (pool st')) (threadsVector m') (code m'))%list.
Proof.
  intros Hinv Hstep Hm. destruct (decide (t = 0%nat)) as [->|Hne].
  - unfold step in Hstep. rewrite Hm in Hstep.
    destruct (code m) as [|i rest] eqn:Ec; [discriminate|].
    assert (Hi : prints i = false).
    { unfold main_inv in Hinv.
      destruct (pool st) as [|m0 [|w1 [|w2 [|w3 p]]]]; try done;
        simpl in Hm; injection Hm as ->.
      - destruct Hinv as [Hc _]. rewrite Hc in Ec. now injection Ec as <- _.
      - destruct Hinv as [Hc _]. rewrite Hc in Ec. now injection Ec as <- _.
      - destruct Hinv as (_ & _ & [[Hc _]|[Hc|[[Hc _]|(Hc & _)]]]);
          rewrite Hc in Ec; try discriminate; now injection Ec as <- _. }
    destruct i; try discriminate; repeat case_match; simplify_eq/=.
    + eexists. split.
      * rewrite lookup_app_l by (rewrite length_insert; eapply lookup_lt_Some; eauto).
        apply list_lookup_insert_eq. eapply lookup_lt_Some; eauto.
      * simpl. rewrite length_app, length_insert, Nat.add_1_r. reflexivity.
    + eexists. split.
      * apply list_lookup_insert_eq. eapply lookup_lt_Some; eauto.
      * simpl. rewrite length_insert, launches_joins. reflexivity.
    + eexists. split.
      * apply list_lookup_insert_eq. eapply lookup_lt_Some; eauto.
      * simpl. rewrite length_insert. reflexivity.
  - exists m. split; [eapply step_others; eauto|]. simpl.
    assert (length (pool st') = length (pool st)) as ->; [|reflexivity].
    destruct t as [|t]; [done|].
    unfold step in Hstep.
    destruct (pool st !! S t) as [th|] eqn:Hl; [|discriminate].
    pose proof (main_inv_printing st t th Hinv Hl) as Hp. unfold printing in Hp.
    destruct (code th) as [|i rest]; [discriminate|].
    simpl in Hp. apply andb_true_iff in Hp as [Hi _].
    destruct i; try discriminate; repeat case_match; simplify_eq/=;
      now rewrite length_insert.
Qed.

Lemma run_launches sched : forall st m,
  main_inv st -> pool st !! 0%nat = Some m ->
  exists m', pool (state_of (run show_id sched st).2) !! 0%nat = Some m' /\
    launches (length (pool st)) (threadsVector m) (code m) =
    (events_by 0 (run show_id sched st).1 ++
     launches (length (pool (state_of (run show_id sched st).2)))
       (threadsVector m') (code m'))%list.
Proof.
  induction sched as [|t sched IH]; intros st m Hinv Hm; simpl; [eauto|].
  destruct (step show_id t st) as [|ev st'|e st'] eqn:Hstep; [now apply IH| |].
  - destruct (step_launches _ _ _ _ _ Hinv Hstep Hm) as (m1 & Hm1 & E1).
    destruct (IH st' m1 (step_keeps_main_inv show_id _ _ _ _ Hinv Hstep) Hm1)
      as (m' & Hm' & E').
    destruct (run show_id sched st') as [trace r]. simpl in *.
    exists m'. split; [exact Hm'|]. rewrite E1, E', events_by_cons.
    destruct (decide (t = 0%nat)); reflexivity.
  - simpl. rewrite (step_fault_pool show_id _ _ _ _ Hstep). eauto.
Qed.

(** X21: under every schedule the launching thread starts the lambda,
    then [someThreadFunction], enters the loop, and joins the two threads
    in the order it started them; it has done all of that when every
    thread has run to its end. *)
Theorem main_thread_order (sched : list tid) (w : World) :
  let trace := (run show_id sched (start w)).1 in
  let final := state_of (run show_id sched (start w)).2 in
  let order := [EvSpawn lambda 1; EvSpawn someThreadFunction 2; EvLoop;
                EvJoin 1; EvJoin 2] in
  events_by 0 trace `prefix_of` order /\
  (all_finished final = true -> events_by 0 trace = order).
Proof.
  intros trace final order.
  destruct (run_launches sched (start w) _ (main_inv_start w) eq_refl)
    as (m' & Hm' & E).
  fold trace final in Hm', E. change (launches _ _ _) with order in E at 1.
  split.
  - rewrite E. now apply prefix_app_r.
  - intros Hfin. rewrite E, (all_finished_lookup _ _ _ Hfin Hm'). simpl.
    now rewrite app_nil_r.
Qed.


End ScheduleFacts.




(** ** The examples and refused requests *)
Section Refusals.
Import Threads.
Import ThreadRuns.
Variable show_double : Templates.double -> string.
Variable show_id : tid -> string.


End Refusals.

(** The properties with a precondition, at the empty world and with the
    ids printed as numbers. *)
Section ScheduleWitnesses.
Import Threads.
Import ThreadRuns.

Lemma callers_can_always_finish_witness :
  Forall (eq false) (supply empty_world) /\
  exists sched' final,
    (run pretty ([1; 0] ++ sched')%nat%list
       (callers [["a"; "b"]; ["c"]] empty_world)).2 = Running final /\
    all_finished final = true.
Proof.
  split; [constructor|].
  apply (callers_can_always_finish pretty [["a"; "b"]; ["c"]] [1; 0]%nat empty_world).
  constructor.
Defined.

Lemma example_can_always_finish_witness :
  Forall (eq false) (supply empty_world) /\
  exists sched' final,
    (run pretty ([0; 1; 0]%nat ++ sched')%list (start empty_world)).2 = Running final /\
    all_finished final = true.
Proof.
  split; [constructor|].
  apply (example_can_always_finish pretty [0; 1; 0]%nat empty_world). constructor.
Defined.

Lemma example_prints_both_lines_witness :
  (Forall (eq false) (supply empty_world) /\
   all_finished
     (state_of (run pretty ([0; 0] ++ repeat 2 10 ++ repeat 1 10 ++ [0; 0; 0])%nat%list
                  (start empty_world)).2) = true) /\
  (cout (world
     (state_of (run pretty ([0; 0] ++ repeat 2 10 ++ repeat 1 10 ++ [0; 0; 0])%nat%list
                  (start empty_world)).2)) =
   cout empty_world +:+ formatted pretty 1 "Hello from the lambda function!" +:+
   formatted pretty 2 "Hello from someThreadFunction()!" \/
   cout (world
     (state_of (run pretty ([0; 0] ++ repeat 2 10 ++ repeat 1 10 ++ [0; 0; 0])%nat%list
                  (start empty_world)).2)) =
   cout empty_world +:+ formatted pretty 2 "Hello from someThreadFunction()!" +:+
   formatted pretty 1 "Hello from the lambda function!").
Proof.
  assert (Hall : Forall (eq false) (supply empty_world)) by constructor.
  assert (Hfin : all_finished
    (state_of (run pretty ([0; 0] ++ repeat 2 10 ++ repeat 1 10 ++ [0; 0; 0])%nat%list
                 (start empty_world)).2) = true) by (vm_compute; reflexivity).
  split; [split; [exact Hall|exact Hfin]|].
  exact (example_prints_both_lines pretty
           ([0; 0] ++ repeat 2 10 ++ repeat 1 10 ++ [0; 0; 0])%nat%list
           empty_world Hall Hfin).
Defined.

Lemma callers_print_whole_lines_witness :
  Forall (eq false) (supply empty_world) /\
  (cout (world (state_of (run pretty [1; 0; 1]%nat
                            (callers [["a"; "b"]; ["c"]] empty_world)).2)) =
   cout empty_world +:+
   joined (map snd (written (run pretty [1; 0; 1]%nat
                               (callers [["a"; "b"]; ["c"]] empty_world)).1)) /\
   (forall t,
      lines_by t (written (run pretty [1; 0; 1]%nat
                             (callers [["a"; "b"]; ["c"]] empty_world)).1)
      `prefix_of`
      map (formatted pretty t) (default [] ([["a"; "b"]; ["c"]] !! t))) /\
   (all_finished (state_of (run pretty [1; 0; 1]%nat
                              (callers [["a"; "b"]; ["c"]] empty_world)).2) = true ->
    forall t,
      lines_by t (written (run pretty [1; 0; 1]%nat
                             (callers [["a"; "b"]; ["c"]] empty_world)).1) =
      map (formatted pretty t) (default [] ([["a"; "b"]; ["c"]] !! t)))).
Proof.
  assert (Hall : Forall (eq false) (supply empty_world)) by constructor.
  split; [exact Hall|].
  exact (callers_print_whole_lines pretty [["a"; "b"]; ["c"]] [1; 0; 1]%nat
           empty_world Hall).
Defined.



End ScheduleWitnesses.
